(** * The connection core of the AMQP client

    A shallow embedding of [connection.go]: the tuning rule [pick], the
    writer gate [send], the once-only [shutdown], the dispatch of inbound
    frames ([demux], [dispatch0], [dispatchN], [dispatchClosed]), the
    channel-0 RPC [call], the opening handshake ([Open], [open],
    [openStart], [openTune], [openVhost]), the channel registry
    ([nextChannelId], [Channel]), the two goroutines ([reader],
    [heartbeater]) and the rest of the public face ([Close],
    [NotifyClose], [isCapable]).

    The connection object is a record that is threaded through every
    method; what a method does to the outside (the transport, the
    subscribers' channels, the goroutines it starts) is appended to a
    chronological log kept in that record.  What the subscribers'
    channels make of it is read off that log with Go's rules for
    channels ([deliver]). *)

From stdpp Require Import gmap strings list.
From Stdlib Require Import ZArith Lia.

Local Open Scope Z_scope.

(** ** Machine integers

    Go's conversions between integer types, on [Z]. *)

Definition uint16 (z : Z) : Z := z mod 2 ^ 16.
Definition uint32 (z : Z) : Z := z mod 2 ^ 32.
Definition int64 (z : Z) : Z := (z + 2 ^ 63) mod 2 ^ 64 - 2 ^ 63.

(** [time.Duration] counts nanoseconds. *)
Definition Second : Z := 1000000000.

(** ** Tuning rule *)

Definition pick (client server : Z) : Z :=
  if (client =? 0) || (server =? 0) then
    (* max *)
    if client >? server then client else server
  else
    (* min *)
    if client >? server then server else client.

(** ** Data declared outside [connection.go]

    The frame and method records, [Error], [Table], [Authentication] and
    [Channel] are declared in other files of the package.  They are given
    here with the fields that [connection.go] reads or writes. *)

(** Modelled from the spec: the [Error] record, a reply code and a reason. *)
Record Error := mkError { Code : Z; Reason : string }.

(** Go's [error] interface as this file produces it: the error of a failed
    frame write (known here by its message only), or an [*Error]. *)
Inductive error :=
| IOError (msg : string)
| AmqpError (e : Error).

(** Modelled from the spec: the server properties, a keyed table of
    dynamically typed values. *)
Inductive value :=
| VBool (b : bool)
| VInt (z : Z)
| VString (s : string)
| VTable (t : Table)
with Table :=
| TNil
| TCons (key : string) (v : value) (rest : Table).

(** [t[key]] with its [ok]. *)
Fixpoint lookupTable (t : Table) (key : string) : option value :=
  match t with
  | TNil => None
  | TCons k v rest => if String.eqb k key then Some v else lookupTable rest key
  end.

(** Modelled from the spec: a SASL mechanism, [Mechanism()] and
    [Response()]. *)
Record Authentication := mkAuthentication { Mechanism : string; Response : string }.

(** The method records.  [method] stands for every method type that
    [connection.go] does not name; its type is its class and method id. *)
Inductive message :=
| connectionStart (VersionMajor VersionMinor : Z) (ServerProperties : Table)
                  (Mechanisms : string)
| connectionStartOk (Mechanism Response : string)
| connectionTune (ChannelMax FrameMax Heartbeat : Z)
| connectionTuneOk (ChannelMax FrameMax Heartbeat : Z)
| connectionOpen (VirtualHost : string)
| connectionOpenOk
| connectionClose (ReplyCode : Z) (ReplyText : string)
| connectionCloseOk
| channelClose (ReplyCode : Z) (ReplyText : string)
| channelCloseOk
| method (ClassId MethodId : Z).

(** [reflect.TypeOf(a) == reflect.TypeOf(b)] on two method records. *)
Definition sameType (a b : message) : bool :=
  match a, b with
  | connectionStart _ _ _ _, connectionStart _ _ _ _ => true
  | connectionStartOk _ _, connectionStartOk _ _ => true
  | connectionTune _ _ _, connectionTune _ _ _ => true
  | connectionTuneOk _ _ _, connectionTuneOk _ _ _ => true
  | connectionOpen _, connectionOpen _ => true
  | connectionOpenOk, connectionOpenOk => true
  | connectionClose _ _, connectionClose _ _ => true
  | connectionCloseOk, connectionCloseOk => true
  | channelClose _ _, channelClose _ _ => true
  | channelCloseOk, channelCloseOk => true
  | method c1 m1, method c2 m2 => (c1 =? c2) && (m1 =? m2)
  | _, _ => false
  end.

(** Field selectors of [*connectionStart] and [*connectionTune]. *)
Module start.
Definition VersionMajor (m : message) : Z :=
  match m with connectionStart a _ _ _ => a | _ => 0 end.
Definition VersionMinor (m : message) : Z :=
  match m with connectionStart _ b _ _ => b | _ => 0 end.
Definition ServerProperties (m : message) : Table :=
  match m with connectionStart _ _ p _ => p | _ => TNil end.
Definition Mechanisms (m : message) : string :=
  match m with connectionStart _ _ _ s => s | _ => EmptyString end.
End start.

Module tune.
Definition ChannelMax (m : message) : Z :=
  match m with connectionTune a _ _ => a | _ => 0 end.
Definition FrameMax (m : message) : Z :=
  match m with connectionTune _ b _ => b | _ => 0 end.
Definition Heartbeat (m : message) : Z :=
  match m with connectionTune _ _ c => c | _ => 0 end.
End tune.

(** The frames.  Content frames carry a payload that the connection never
    looks at. *)
Inductive frame :=
| protocolHeader
| methodFrame (ChannelId : Z) (Method : message)
| headerFrame (ChannelId : Z) (payload : list Z)
| bodyFrame (ChannelId : Z) (payload : list Z)
| heartbeatFrame (ChannelId : Z).

(** [f.channel()].  The protocol header is only ever written; it has no
    channel field and is given channel 0 here. *)
Definition channel (f : frame) : Z :=
  match f with
  | protocolHeader => 0
  | methodFrame c _ | headerFrame c _ | bodyFrame c _ | heartbeatFrame c => c
  end.

(** A channel object, as [newChannel(me, id)] makes it.  The connection
    only keeps it in the registry and calls its [recv], [shutdown] and
    [open]. *)
Record Channel := newChannel { id : Z }.

(** ** Config and Connection *)

Record Config := mkConfig {
  SASL : list Authentication;
  Vhost : string;
  Channels : Z;       (* 0 max channels means unlimited *)
  FrameSize : Z;      (* 0 max bytes means unlimited *)
  Heartbeat : Z       (* time.Duration; less than 1s interval means no heartbeats *)
}.

(** A reference to a subscriber's [chan *Error]. *)
Definition chanref := nat.

Inductive goroutine :=
| GoReader
| GoHeartbeater (interval : Z).

(** What the connection does to the outside, one constructor for each
    statement of [connection.go] that acts on something the connection
    does not own. *)
Inductive event :=
| EvGo (g : goroutine)                           (* go me.reader(), go me.heartbeater(d) *)
| EvWrite (f : frame) (err : option string)      (* me.writer.WriteFrame(f) and its result *)
| EvShutdown (err : option Error)                (* me.shutdown(err) is entered *)
| EvNotify (c : chanref) (e : Error)             (* c <- err, c in me.closes *)
| EvChannelShutdown (id : Z) (err : option Error)(* c.shutdown(err), c in me.channels *)
| EvErrors (e : Error)                           (* me.errors <- err *)
| EvCloseSends                                   (* close(me.sends) *)
| EvCloseConn                                    (* me.conn.Close() *)
| EvCloseNotify (c : chanref)                    (* close(c), c in me.closes *)
| EvRecv (id : Z) (f : frame)                    (* channel.recv(channel, f) *)
| EvChannelOpen (id : Z).                        (* channel.open() *)

(** The [io.ReadWriteCloser] under the connection, seen from the
    connection: what each coming [ReadFrame] returns (a frame, or the
    message of an error; when the list is used up, the read never
    returns) and what each coming [WriteFrame] returns ([None]: written;
    when the list is used up, every write succeeds). *)
Record Transport := mkTransport {
  incoming : list (frame + string);
  outgoing : list (option string)
}.

Record Connection := mkConnection {
  destructor : bool;            (* sync.Once: Do has started its function *)
  conn : Transport;
  rpc : option message;         (* the reader is blocked in [me.rpc <- m] *)
  sends : bool;                 (* false: me.sends is nil *)
  sequence : Z;                 (* uint32 *)
  channels : gmap Z Channel;
  closes : list chanref;
  errors : list Error;          (* chan *Error of capacity 1 *)
  Config_ : Config;             (* the field [Config] *)
  Major : Z;
  Minor : Z;
  Properties : Table;
  reading : bool;               (* the reader goroutine is in its loop *)
  closing : option Error;       (* the reader waits in the [select] of [closeWith(err)] *)
  log : list event
}.

(** Field updates of [Connection]. *)
Definition set_destructor (v : bool) (w : Connection) : Connection :=
  mkConnection v (conn w) (rpc w) (sends w) (sequence w) (channels w) (closes w)
    (errors w) (Config_ w) (Major w) (Minor w) (Properties w) (reading w)
    (closing w) (log w).
Definition set_conn (v : Transport) (w : Connection) : Connection :=
  mkConnection (destructor w) v (rpc w) (sends w) (sequence w) (channels w) (closes w)
    (errors w) (Config_ w) (Major w) (Minor w) (Properties w) (reading w)
    (closing w) (log w).
Definition set_rpc (v : option message) (w : Connection) : Connection :=
  mkConnection (destructor w) (conn w) v (sends w) (sequence w) (channels w) (closes w)
    (errors w) (Config_ w) (Major w) (Minor w) (Properties w) (reading w)
    (closing w) (log w).
Definition set_sends (v : bool) (w : Connection) : Connection :=
  mkConnection (destructor w) (conn w) (rpc w) v (sequence w) (channels w) (closes w)
    (errors w) (Config_ w) (Major w) (Minor w) (Properties w) (reading w)
    (closing w) (log w).
Definition set_sequence (v : Z) (w : Connection) : Connection :=
  mkConnection (destructor w) (conn w) (rpc w) (sends w) v (channels w) (closes w)
    (errors w) (Config_ w) (Major w) (Minor w) (Properties w) (reading w)
    (closing w) (log w).
Definition set_channels (v : gmap Z Channel) (w : Connection) : Connection :=
  mkConnection (destructor w) (conn w) (rpc w) (sends w) (sequence w) v (closes w)
    (errors w) (Config_ w) (Major w) (Minor w) (Properties w) (reading w)
    (closing w) (log w).
Definition set_closes (v : list chanref) (w : Connection) : Connection :=
  mkConnection (destructor w) (conn w) (rpc w) (sends w) (sequence w) (channels w) v
    (errors w) (Config_ w) (Major w) (Minor w) (Properties w) (reading w)
    (closing w) (log w).
Definition set_errors (v : list Error) (w : Connection) : Connection :=
  mkConnection (destructor w) (conn w) (rpc w) (sends w) (sequence w) (channels w)
    (closes w) v (Config_ w) (Major w) (Minor w) (Properties w) (reading w)
    (closing w) (log w).
Definition set_Config (v : Config) (w : Connection) : Connection :=
  mkConnection (destructor w) (conn w) (rpc w) (sends w) (sequence w) (channels w)
    (closes w) (errors w) v (Major w) (Minor w) (Properties w) (reading w)
    (closing w) (log w).
Definition set_Major (v : Z) (w : Connection) : Connection :=
  mkConnection (destructor w) (conn w) (rpc w) (sends w) (sequence w) (channels w)
    (closes w) (errors w) (Config_ w) v (Minor w) (Properties w) (reading w)
    (closing w) (log w).
Definition set_Minor (v : Z) (w : Connection) : Connection :=
  mkConnection (destructor w) (conn w) (rpc w) (sends w) (sequence w) (channels w)
    (closes w) (errors w) (Config_ w) (Major w) v (Properties w) (reading w)
    (closing w) (log w).
Definition set_Properties (v : Table) (w : Connection) : Connection :=
  mkConnection (destructor w) (conn w) (rpc w) (sends w) (sequence w) (channels w)
    (closes w) (errors w) (Config_ w) (Major w) (Minor w) v (reading w) (closing w)
    (log w).
Definition set_reading (v : bool) (w : Connection) : Connection :=
  mkConnection (destructor w) (conn w) (rpc w) (sends w) (sequence w) (channels w)
    (closes w) (errors w) (Config_ w) (Major w) (Minor w) (Properties w) v
    (closing w) (log w).
Definition set_closing (v : option Error) (w : Connection) : Connection :=
  mkConnection (destructor w) (conn w) (rpc w) (sends w) (sequence w) (channels w)
    (closes w) (errors w) (Config_ w) (Major w) (Minor w) (Properties w) (reading w)
    v (log w).
Definition set_log (v : list event) (w : Connection) : Connection :=
  mkConnection (destructor w) (conn w) (rpc w) (sends w) (sequence w) (channels w)
    (closes w) (errors w) (Config_ w) (Major w) (Minor w) (Properties w) (reading w)
    (closing w) v.

Definition set_SASL (v : list Authentication) (c : Config) : Config :=
  mkConfig v (Vhost c) (Channels c) (FrameSize c) (Heartbeat c).
Definition set_Vhost (v : string) (c : Config) : Config :=
  mkConfig (SASL c) v (Channels c) (FrameSize c) (Heartbeat c).
Definition set_Channels (v : Z) (c : Config) : Config :=
  mkConfig (SASL c) (Vhost c) v (FrameSize c) (Heartbeat c).
Definition set_FrameSize (v : Z) (c : Config) : Config :=
  mkConfig (SASL c) (Vhost c) (Channels c) v (Heartbeat c).
Definition set_Heartbeat (v : Z) (c : Config) : Config :=
  mkConfig (SASL c) (Vhost c) (Channels c) (FrameSize c) v.

(** ** Methods as state transformers

    A method of [*Connection] takes the connection and either returns,
    with a result and the connection as it left it, or blocks for ever
    (on a receive that nothing will answer), leaving the connection as it
    was when it blocked.

    Goroutines.  A method is run as a whole.  The goroutines of a
    connection meet in two ways.  In a history ([run], below) they take
    steps one after the other, in any order: a turn of the reader, a
    [send], a [Close], a [shutdown].  Inside a method, a caller that
    waits in the [select] of [call] lets the reader take its turns until
    a case of the [select] is ready, and goes on as soon as one is.  Go
    has more schedules than that: while a caller goes through a method
    the reader may be ahead of it, up to the next frame that it must hand
    over on [me.rpc] or to the end of its loop.  What is stated below of
    a method for every stream holds in all of them (what the method
    returns, what it writes itself); what is stated of the connection as
    the method leaves it is stated for streams that leave the reader
    nothing to do. *)

Inductive outcome (A : Type) :=
| Done (a : A) (w : Connection)
| Blocked (w : Connection).
Arguments Done {A} a w.
Arguments Blocked {A} w.

Definition M (A : Type) : Type := Connection -> outcome A.

Definition ret {A} (a : A) : M A := fun w => Done a w.

Definition bind {A B} (m : M A) (k : A -> M B) : M B :=
  fun w => match m w with
           | Done a w' => k a w'
           | Blocked w' => Blocked w'
           end.

Notation "x <- m ;; k" := (bind m (fun x => k))
  (at level 90, m at level 89, right associativity).
Notation "m >> k" := (bind m (fun _ => k))
  (at level 90, right associativity).

(** The connection an outcome ends with. *)
Definition final {A} (o : outcome A) : Connection :=
  match o with Done _ w => w | Blocked w => w end.

Definition modify (f : Connection -> Connection) : M unit :=
  fun w => Done tt (f w).

(** The connection as it is now: [me]. *)
Definition get : M Connection :=
  fun w => Done w w.

(** A wait that never ends. *)
Definition block {A} : M A :=
  fun w => Blocked w.

Definition emit (ev : event) : M unit :=
  modify (fun w => set_log (log w ++ [ev]) w).

(** A loop body run for every element of a list, in order. *)
Fixpoint forEach {A} (l : list A) (body : A -> M unit) : M unit :=
  match l with
  | [] => ret tt
  | x :: l' => body x >> forEach l' body
  end.

(** The events a computation adds to the log of [w]. *)
Definition trace {A} (m : M A) (w : Connection) : list event :=
  drop (length (log w)) (log (final (m w))).

(** [me.writer.WriteFrame(f)]: the transport decides the result. *)
Definition WriteFrame (f : frame) : M (option string) :=
  fun w =>
    let '(err, rest) :=
      match outgoing (conn w) with
      | [] => (None, [])
      | r :: rest => (r, rest)
      end in
    Done err
      (set_log (log w ++ [EvWrite f err])
         (set_conn (mkTransport (incoming (conn w)) rest) w)).

(** ** Helpers of the package used by the handshake *)

(** [strings.Split(s, sep)] for a separator of one character. *)
Fixpoint SplitFrom (cur s : string) (sep : Ascii.ascii) : list string :=
  match s with
  | EmptyString => [cur]
  | String c s' =>
      if Ascii.eqb c sep then cur :: SplitFrom EmptyString s' sep
      else SplitFrom (String.append cur (String c EmptyString)) s' sep
  end.

Definition Split (s : string) (sep : Ascii.ascii) : list string :=
  SplitFrom EmptyString s sep.

(** Modelled from the spec: [pickSASLMechanism], which is declared with the
    SASL mechanisms.  The client's list is walked in its own order and the
    first mechanism that the server also names is chosen. *)
Definition pickSASLMechanism (client : list Authentication)
    (serverMechanisms : list string) : option Authentication :=
  List.find (fun auth => existsb (String.eqb (Mechanism auth)) serverMechanisms) client.

(** Modelled from the spec: [newError], which builds the [*Error] of a
    reply code and a reply text sent by the server. *)
Definition newError (code : Z) (text : string) : Error := mkError code text.

(** The reply codes and the package's error values, which are declared
    with the protocol constants. *)
Class Constants := {
  FrameError : Z;
  replySuccess : Z;
  ErrClosed : Error;
  ErrUnexpectedFrame : Error;
  ErrSASL : Error;
  ErrCredentials : Error;
  ErrVhost : Error;
  ErrCommandInvalid : Error
}.

(** What the [select] of [call] received. *)
Inductive selected :=
| FromErrors (e : Error)      (* case err := <-me.errors *)
| FromRpc (m : message).      (* case msg := <-me.rpc *)

Section Methods.
Context {K : Constants}.

(** ** Shutdown *)

(** The function given to [me.destructor.Do].  [me.errors] has room for
    one error and a send on it blocks when it is full.  The sends on the
    subscribers' channels, their closes and the calls into the channels
    are recorded where they are made and the function goes on: this is
    the function under the contract of [NotifyClose], with subscribers
    that take what they are sent.  What Go does with the recorded sends
    and closes for other subscribers (a send that stalls, a close that
    panics) is what [deliver], below, makes of the log.  The range over
    [me.channels] has no order of its own in Go; it is taken here in the
    order of [map_to_list], and which channels are shut down is stated
    below up to that order. *)
Definition destroy (err : option Error) : M unit :=
  me <- get ;;
  match err with
  | Some e => forEach (closes me) (fun c => emit (EvNotify c e))
  | None => ret tt
  end >>
  me <- get ;;
  forEach (map_to_list (channels me))
    (fun '(key, c) =>
       modify (fun w => set_channels (delete key (channels w)) w) >>
       emit (EvChannelShutdown (id c) err)) >>
  me <- get ;;
  match err with
  | Some e =>
      if decide (length (errors me) < 1)%nat
      then modify (set_errors (errors me ++ [e])) >> emit (EvErrors e)
      else block
  | None => ret tt
  end >>
  emit EvCloseSends >>
  modify (set_sends false) >>
  emit EvCloseConn >>
  me <- get ;;
  forEach (closes me) (fun c => emit (EvCloseNotify c)).

(** [sync.Once]: the first caller runs the function, every later caller
    returns at once. *)
Definition shutdown (err : option Error) : M unit :=
  emit (EvShutdown err) >>
  me <- get ;;
  if destructor me then ret tt
  else modify (set_destructor true) >> destroy err.

(** ** Writer gate *)

(** The timestamp offered on [me.sends] is taken by the heartbeater when
    it is waiting and dropped otherwise; the connection is the same
    either way. *)
Definition send (f : frame) : M (option string) :=
  err <- WriteFrame f ;;
  match err with
  | Some msg => shutdown (Some (mkError FrameError msg)) >> ret err
  | None => ret err
  end.

(** ** RPC on channel 0 *)

(** [*res = *msg] for the first [res] of the type of [msg]. *)
Fixpoint assign (msg : message) (res : list message) : option (list message) :=
  match res with
  | [] => None
  | try :: rest =>
      if sameType msg try then Some (msg :: rest)
      else option_map (cons try) (assign msg rest)
  end.

(** [call] waits in a [select]; [select] is how that wait ends for the
    goroutine that calls.  The result is the error and the [res] as the
    call leaves them. *)
Definition call (select : M selected) (req : option message) (res : list message)
    : M (option error * list message) :=
  err <- match req with
         | Some r => send (methodFrame 0 r)
         | None => ret None
         end ;;
  match err with
  | Some msg => ret (Some (IOError msg), res)
  | None =>
      s <- select ;;
      match s with
      | FromErrors e => ret (Some (AmqpError e), res)
      | FromRpc msg =>
          match assign msg res with
          | Some res' => ret (None, res')
          | None => ret (Some (AmqpError ErrCommandInvalid), res)
          end
      end
  end.

(** The receive that can proceed at once, if any: an error waiting in
    [me.errors], or the message the reader is offering on [me.rpc].  When
    both can, the error is taken. *)
Definition poll (w : Connection) : option (selected * Connection) :=
  match errors w, rpc w with
  | e :: rest, _ => Some (FromErrors e, set_errors rest w)
  | [], Some m => Some (FromRpc m, set_rpc None w)
  | [], None => None
  end.

(** The [select] of the [call] that [closeWith(err)] makes, on the reader
    goroutine itself: nothing is offered on [me.rpc] while the reader
    waits here.  When no case is ready the reader stays in this [select];
    [closing] remembers that it does, and for which [err], so that
    [reader] can take it up again once an error is in [me.errors]. *)
Definition selectOnReader (err : Error) : M selected :=
  fun w => match poll w with
           | Some (s, w') => Done s w'
           | None => Blocked (set_closing (Some err) w)
           end.

(** [closeWith] is called from the dispatch functions only, on the reader
    goroutine. *)
Definition closeWith (err : Error) : M (option error) :=
  r <- call (selectOnReader err)
         (Some (connectionClose (uint16 (Code err)) (Reason err)))
         [connectionCloseOk] ;;
  shutdown (Some err) >>
  ret (fst r).

(** ** Dispatch *)

Definition dispatch0 (f : frame) : M unit :=
  match f with
  | methodFrame _ m =>
      match m with
      | connectionClose ReplyCode ReplyText =>
          (* Send immediately as shutdown will close our side of the writer. *)
          send (methodFrame 0 connectionCloseOk) >>
          shutdown (Some (newError ReplyCode ReplyText))
      | _ =>
          (* me.rpc <- m *)
          modify (set_rpc (Some m))
      end
  | heartbeatFrame _ => ret tt
  | _ => closeWith ErrUnexpectedFrame >> ret tt
  end.

Definition dispatchClosed (f : frame) : M unit :=
  match f with
  | methodFrame _ m =>
      match m with
      | channelClose _ _ =>
          send (methodFrame (channel f) channelCloseOk) >> ret tt
      | channelCloseOk => ret tt
      | _ => closeWith ErrClosed >> ret tt
      end
  | _ => ret tt
  end.

Definition dispatchN (f : frame) : M unit :=
  me <- get ;;
  match channels me !! channel f with
  | Some c => emit (EvRecv (id c) f)
  | None => dispatchClosed f
  end.

Definition demux (f : frame) : M unit :=
  if channel f =? 0 then dispatch0 f else dispatchN f.

(** ** Reader loop *)

(** One turn of the loop of [reader], for what [ReadFrame] returned.  The
    read deadline that the turn ends with is on the transport's clock and
    is left out. *)
Definition readerTurn (r : frame + string) : M unit :=
  match r with
  | inr msg =>
      shutdown (Some (mkError FrameError msg)) >>
      (* return: the goroutine is gone, it waits nowhere *)
      modify (set_reading false) >>
      modify (set_closing None)
  | inl f => demux f
  end.

(** What is left of a turn for a reader that waits in the [select] of
    [closeWith(err)], once a case of that [select] is ready: [call]
    returns, the deferred [shutdown(err)] runs, the dispatch functions
    return (they do not use the result of [closeWith]) and the reader is
    back in its loop. *)
Definition readerResumes (err : Error) : M unit :=
  fun w =>
    match poll w with
    | Some (_, w') =>
        (shutdown (Some err) >>
         modify (set_closing None) >>
         modify (set_reading true)) w'
    | None => Blocked w
    end.

(** The reader goroutine takes its next turn.  In its loop, it reads what
    the transport has next; it cannot while it is blocked in
    [me.rpc <- m] or when the transport has nothing.  A reader that
    blocks inside its turn is out of its loop; if that was in the
    [select] of [closeWith], its next turn is [readerResumes].  A reader
    that has returned takes no turn. *)
Definition reader : M unit :=
  fun w =>
    match rpc w, reading w with
    | None, true =>
        match incoming (conn w) with
        | r :: rest =>
            match readerTurn r (set_conn (mkTransport rest (outgoing (conn w))) w) with
            | Done _ w' => Done tt w'
            | Blocked w' => Blocked (set_reading false w')
            end
        | [] => Blocked w
        end
    | None, false =>
        match closing w with
        | Some err => readerResumes err w
        | None => Blocked w
        end
    | Some _, _ => Blocked w
    end.

(** The [select] of a [call] made by another goroutine: the reader goes
    on through [input] until an error is in [me.errors] or the reader
    offers a message on [me.rpc], and the caller takes it at once.  (In
    Go the reader may by then be at its next [ReadFrame].) *)
Fixpoint selectReading (input : list (frame + string)) (w : Connection)
    : outcome selected :=
  match poll w with
  | Some (s, w') => Done s w'
  | None =>
      match reading w, input with
      | true, r :: rest =>
          match readerTurn r (set_conn (mkTransport rest (outgoing (conn w))) w) with
          | Done _ w' => selectReading rest w'
          | Blocked w' => Blocked (set_reading false w')
          end
      | _, _ => Blocked w
      end
  end.

Definition select : M selected :=
  fun w => selectReading (incoming (conn w)) w.

(** ** Public operations *)

Definition NotifyClose (c : chanref) : M chanref :=
  modify (fun w => set_closes (closes w ++ [c]) w) >>
  ret c.

(** The deferred [shutdown(nil)] runs when [call] has returned.  (In Go
    the reader, back at [ReadFrame], may be first with a [shutdown] of
    its own if the stream ends there.) *)
Definition Close : M (option error) :=
  r <- call select
         (Some (connectionClose replySuccess "kthxbai"))
         [connectionCloseOk] ;;
  shutdown None >>
  ret (fst r).

(** ** Channel registry *)

Definition nextChannelId : M Z :=
  fun w =>
    let n := uint32 (sequence w + 1) in
    Done (uint16 n) (set_sequence n w).

(** What [channel.open()] does is the channel's business; the error it
    returns is the argument [opened]. *)
Definition Channel_ (opened : option error) : M (Channel * option error) :=
  key <- nextChannelId ;;
  let channel := newChannel key in
  modify (fun w => set_channels (<[key := channel]> (channels w)) w) >>
  emit (EvChannelOpen key) >>
  ret (channel, opened).

(** ** Server capabilities *)

Definition isCapable (featureName : string) : M bool :=
  me <- get ;;
  ret match lookupTable (Properties me) "capabilities" with
      | Some (VTable capabilities) =>
          match lookupTable capabilities featureName with
          | Some (VBool has) => has
          | _ => false
          end
      | _ => false
      end.

(** ** Opening handshake *)

Definition openVhost (config : Config) : M (option error) :=
  let req := connectionOpen (Vhost config) in
  let res := connectionOpenOk in
  r <- call select (Some req) [res] ;;
  match fst r with
  | Some _ =>
      (* Cannot be closed yet, but we know it's a vhost problem *)
      ret (Some (AmqpError ErrVhost))
  | None =>
      modify (fun w => set_Config (set_Vhost (Vhost config) (Config_ w)) w) >>
      ret None
  end.

Definition openTune (config : Config) (auth : Authentication) : M (option error) :=
  let ok := connectionStartOk (Mechanism auth) (Response auth) in
  r <- call select (Some ok) [connectionTune 0 0 0] ;;
  match fst r with
  | Some _ =>
      (* at this point, we know it's an auth error, but the socket was
         closed instead.  Return a meaningful error. *)
      ret (Some (AmqpError ErrCredentials))
  | None =>
      let tune := hd (connectionTune 0 0 0) (snd r) in
      modify (fun w =>
        set_Config (set_Channels
          (pick (Channels config) (tune.ChannelMax tune)) (Config_ w)) w) >>
      modify (fun w =>
        set_Config (set_FrameSize
          (pick (FrameSize config) (tune.FrameMax tune)) (Config_ w)) w) >>
      modify (fun w =>
        set_Config (set_Heartbeat
          (int64 (Second * pick (Heartbeat config ÷ Second) (tune.Heartbeat tune)))
          (Config_ w)) w) >>
      me <- get ;;
      (if Heartbeat (Config_ me) >? 0
       then emit (EvGo (GoHeartbeater (Heartbeat (Config_ me))))
       else ret tt) >>
      err <- send (methodFrame 0
                     (connectionTuneOk
                        (uint16 (Channels (Config_ me)))
                        (uint32 (FrameSize (Config_ me)))
                        (uint16 (Heartbeat (Config_ me) ÷ Second)))) ;;
      match err with
      | Some msg => ret (Some (IOError msg))
      | None => openVhost config
      end
  end.

Definition openStart (config : Config) : M (option error) :=
  r <- call select None [connectionStart 0 0 TNil ""] ;;
  match fst r with
  | Some err => ret (Some err)
  | None =>
      let st := hd (connectionStart 0 0 TNil "") (snd r) in
      modify (set_Major (start.VersionMajor st)) >>
      modify (set_Minor (start.VersionMinor st)) >>
      modify (set_Properties (start.ServerProperties st)) >>
      match pickSASLMechanism (SASL config) (Split (start.Mechanisms st) Ascii.Space) with
      | None => ret (Some (AmqpError ErrSASL))
      | Some auth =>
          (* Save this mechanism off as the one we chose *)
          modify (fun w => set_Config (set_SASL [auth] (Config_ w)) w) >>
          openTune config auth
      end
  end.

Definition open (config : Config) : M (option error) :=
  err <- send protocolHeader ;;
  match err with
  | Some msg => ret (Some (IOError msg))
  | None => openStart config
  end.

(** The connection that [Open] builds around [conn] before it starts the
    reader. *)
Definition connect (conn : Transport) : Connection :=
  mkConnection false conn None true 0 ∅ [] []
    (mkConfig [] "" 0 0 0) 0 0 TNil false None [].

(** [Open] returns a pointer to the connection and the error of the
    handshake; [None] when it does not return.  The pointer is [Some] of
    the connection as the handshake left it, [None] for [nil].  The
    reader started by [go me.reader()] takes its first turn when the
    handshake first waits.  (In Go it may read before the protocol header
    is written.) *)
Definition Open (conn : Transport) (config : Config)
    : option (option Connection * option error) :=
  let me := connect conn in
  match (emit (EvGo GoReader) >> modify (set_reading true) >> open config) me with
  | Done err me' => Some (Some me', err)
  | Blocked _ => None
  end.

End Methods.

(** The channels whose [shutdown] was called, each with the error it was
    given, in order. *)
Definition channelShutdowns (evs : list event) : list (Z * option Error) :=
  omap (fun ev =>
          match ev with
          | EvChannelShutdown id err => Some (id, err)
          | _ => None
          end) evs.

(** ** Observations on the log *)

(** The events that only the function given to [me.destructor.Do] makes. *)
Definition teardown (ev : event) : bool :=
  match ev with
  | EvNotify _ _ | EvChannelShutdown _ _ | EvErrors _
  | EvCloseSends | EvCloseConn | EvCloseNotify _ => true
  | _ => false
  end.

(** The events of one run of that function on [w], in order. *)
Definition destroyEvents (err : option Error) (w : Connection) : list event :=
  match err with
  | Some e => map (fun c => EvNotify c e) (closes w)
  | None => []
  end ++
  map (fun kc : Z * Channel => EvChannelShutdown (id kc.2) err)
      (map_to_list (channels w)) ++
  match err with
  | Some e => [EvErrors e]
  | None => []
  end ++
  [EvCloseSends; EvCloseConn] ++
  map EvCloseNotify (closes w).

(** The frames handed to [WriteFrame], in order. *)
Definition writes (evs : list event) : list frame :=
  omap (fun ev => match ev with EvWrite f _ => Some f | _ => None end) evs.

(** What the subscriber that holds [c] sees on it: [Some e] for an error
    received, [None] for the close. *)
Definition heard (c : chanref) (evs : list event) : list (option Error) :=
  omap (fun ev =>
          match ev with
          | EvNotify c' e => if decide (c' = c) then Some (Some e) else None
          | EvCloseNotify c' => if decide (c' = c) then Some None else None
          | _ => None
          end) evs.

(** How many times [c] is in [me.closes]. *)
Definition registered (c : chanref) (w : Connection) : nat :=
  length (filter (fun c' => c' = c) (closes w)).

(** The function given to [me.destructor.Do] has not been entered and has
    left no event, or it has been entered and the events of its kind in
    the whole log are those of one run. *)
Definition atMostOnce (w : Connection) : Prop :=
  (destructor w = false /\ errors w = [] /\ filter teardown (log w) = [])
  \/ (destructor w = true /\
      exists err w1, filter teardown (log w) = destroyEvents err w1).

(** ** Relations between a connection and what a method makes of it *)

(** [always R m]: whatever the connection, [m] takes it to one that is
    [R]-related to it, whether [m] returns or blocks. *)
Definition always {A} (R : Connection -> Connection -> Prop) (m : M A) : Prop :=
  forall w, R w (final (m w)).

(** The log of the second connection continues the log of the first. *)
Definition extends (w w' : Connection) : Prop :=
  exists evs, log w' = log w ++ evs.

(** What holds of the first connection holds of the second. *)
Definition keeps (P : Connection -> Prop) (w w' : Connection) : Prop :=
  P w -> P w'.

(** No frame was handed to the writer in between. *)
Definition sameWrites (w w' : Connection) : Prop :=
  writes (log w') = writes (log w).

(** The destructor has fired. *)
Definition fired (w : Connection) : Prop := destructor w = true.

(** How many times the transport was closed. *)
Definition isCloseConn (ev : event) : bool :=
  match ev with EvCloseConn => true | _ => false end.

Definition transportCloses (evs : list event) : nat :=
  length (filter isCloseConn evs).

(** How many times [me.sends] was closed. *)
Definition isCloseSends (ev : event) : bool :=
  match ev with EvCloseSends => true | _ => false end.

Definition sendsCloses (evs : list event) : nat :=
  length (filter isCloseSends evs).

(** Once the destructor has fired it stays fired and no event of the
    function given to [me.destructor.Do] is made any more. *)
Definition settled (w w' : Connection) : Prop :=
  destructor w = true ->
  destructor w' = true
  /\ exists evs, log w' = log w ++ evs /\ filter teardown evs = [].

(** The transport is as it was. *)
Definition sameTransport (w w' : Connection) : Prop := conn w' = conn w.

(** The negotiated config and what was recorded of the server are as
    they were. *)
Definition sameSettings (w w' : Connection) : Prop :=
  Config_ w' = Config_ w /\ Major w' = Major w /\ Minor w' = Minor w
  /\ Properties w' = Properties w.

(** What the reader is offering on [me.rpc] is as it was. *)
Definition sameRpc (w w' : Connection) : Prop := rpc w' = rpc w.

(** ** Heartbeater *)

(** A [time.Time] is taken as the nanoseconds of its monotonic clock
    reading; [t.Sub(u)] is a [time.Duration] and saturates. *)
Definition Sub (t u : Z) : Z :=
  Z.max (- 2 ^ 63) (Z.min (2 ^ 63 - 1) (t - u)).

(** What the [select] of the heartbeater receives. *)
Inductive wakeup :=
| Tick (t : Z)        (* case at := <-tick *)
| Sent (t : Z)        (* case at, open := <-me.sends, with open *)
| SendsClosed.        (* case at, open := <-me.sends, with !open *)

Definition isTick (k : wakeup) : bool :=
  match k with Tick _ => true | _ => false end.

(** No tick comes later than [interval - 1s] after the latest frame sent
    before it, or after [last] when none was. *)
Fixpoint inTime (interval last : Z) (wakeups : list wakeup) : Prop :=
  match wakeups with
  | [] => True
  | Tick t :: rest =>
      Sub t last <= int64 (interval - Second) /\ inTime interval last rest
  | Sent t :: rest => inTime interval t rest
  | SendsClosed :: _ => True
  end.

Section Heartbeater.
Context {K : Constants}.

(** The loop of [heartbeater], for the wake-ups the [select] is going to
    receive; it waits for ever when there are no more. *)
Fixpoint heartbeating (interval last : Z) (wakeups : list wakeup) : M unit :=
  match wakeups with
  | [] => block
  | Tick t :: rest =>
      if Sub t last >? int64 (interval - Second) then
        err <- send (heartbeatFrame 0) ;;
        match err with
        | Some _ =>
            (* send heartbeats even after close/closeOk so we
               tick until the connection starts erroring *)
            ret tt
        | None => heartbeating interval last rest
        end
      else heartbeating interval last rest
  | Sent t :: rest => heartbeating interval t rest
  | SendsClosed :: _ => ret tt
  end.

(** [heartbeater(interval)] started at time [now]. *)
Definition heartbeater (interval now : Z) (wakeups : list wakeup) : M unit :=
  heartbeating interval now wakeups.

End Heartbeater.

(** ** The subscribers' channels

    A [chan *Error] given to [NotifyClose] belongs to the subscriber: the
    subscriber made it, with or without a buffer, and reads it or not.
    Seen from the connection it has room for so many more values (the
    free places of its buffer and the receives that the subscriber will
    still make), it has handed over some values, and it is closed or not. *)
Record listener := mkListener {
  room : nat;
  received : list Error;
  closed : bool
}.

Definition listeners : Type := chanref -> listener.

Definition listen (c : chanref) (l : listener) (ls : listeners) : listeners :=
  fun c' => if decide (c' = c) then l else ls c'.

(** How far [shutdown] gets with the subscribers. *)
Inductive delivery :=
| Delivered (ls : listeners)               (* through every send and close *)
| Stalled (c : chanref) (ls : listeners)   (* [c <- err] waits for ever *)
| Panics (c : chanref) (ls : listeners).   (* send on, or close of, a closed channel *)

(** The log records [c <- err] and [close(c)] where [connection.go] makes
    them, in program order.  [deliver] goes through a log with Go's rules
    for channels: a send on a channel without room does not return, and
    nothing that the log has after it happens; a send on a closed channel
    and the close of a closed channel panic. *)
Fixpoint deliver (ls : listeners) (evs : list event) : delivery :=
  match evs with
  | [] => Delivered ls
  | EvNotify c e :: rest =>
      if closed (ls c) then Panics c ls
      else
        match room (ls c) with
        | O => Stalled c ls
        | S n => deliver (listen c (mkListener n (received (ls c) ++ [e]) false) ls) rest
        end
  | EvCloseNotify c :: rest =>
      if closed (ls c) then Panics c ls
      else deliver (listen c (mkListener (room (ls c)) (received (ls c)) true) ls) rest
  | _ :: rest => deliver ls rest
  end.

(** ** Histories of a connection

    What the goroutines around a connection may do to it, one step at a
    time and in any order. *)
Inductive step :=
| DoOpen (config : Config)                (* [Open] on the connection: go me.reader(); me.open(config) *)
| DoReader                                (* the reader takes a turn *)
| DoSend (f : frame)                      (* a channel or the heartbeater sends *)
| DoClose                                 (* [Close()] *)
| DoShutdown (err : option Error)         (* [shutdown(err)] *)
| DoChannel (opened : option error)       (* [Channel()] *)
| DoNotifyClose (c : chanref).            (* [NotifyClose(c)] *)

Section Histories.
Context {K : Constants}.

Definition perform (s : step) (w : Connection) : Connection :=
  match s with
  | DoOpen config =>
      final ((emit (EvGo GoReader) >> modify (set_reading true) >> open config) w)
  | DoReader => final (reader w)
  | DoSend f => final (send f w)
  | DoClose => final (Close w)
  | DoShutdown err => final (shutdown err w)
  | DoChannel opened => final (Channel_ opened w)
  | DoNotifyClose c => final (NotifyClose c w)
  end.

Definition run (steps : list step) (w : Connection) : Connection :=
  foldl (fun w s => perform s w) w steps.

(** [Channel()] called [n] times in a row. *)
Fixpoint allocate (n : nat) (w : Connection) : Connection :=
  match n with
  | O => w
  | S n' => final (Channel_ None (allocate n' w))
  end.

End Histories.

(** The reply codes of AMQP 0-9-1, for the worked runs below. *)
Definition amqp091 : Constants := {|
  FrameError := 501;
  replySuccess := 200;
  ErrClosed := mkError 504 "channel/connection is not open";
  ErrUnexpectedFrame := mkError 505 "unexpected frame received";
  ErrSASL := mkError 403 "SASL could not negotiate a shared mechanism";
  ErrCredentials := mkError 403 "username or password not allowed";
  ErrVhost := mkError 403 "no access to this vhost";
  ErrCommandInvalid := mkError 503 "unexpected command received"
|}.

Definition plainAuth : Authentication := mkAuthentication "PLAIN" "guest".

(** A server that goes through the handshake and offers [heartbeat]
    seconds in TUNE. *)
Definition tuningServer (heartbeat : Z) : Transport :=
  mkTransport
    [inl (methodFrame 0 (connectionStart 0 9 TNil "AMQPLAIN PLAIN"));
     inl (methodFrame 0 (connectionTune 2047 131072 heartbeat));
     inl (methodFrame 0 connectionOpenOk)]
    [].

(** A transport on which the server closes the connection and then the
    stream, and on which the second write fails. *)
Definition closingServer : Transport :=
  mkTransport
    [inl (methodFrame 0 (connectionClose 320 "going down"));
     inr "EOF"]
    [None; Some "broken pipe"; None; Some "use of closed network connection"].

(** A transport on which TUNE is waiting to be read. *)
Definition tuneWaiting : Transport :=
  mkTransport [inl (methodFrame 0 (connectionTune 2047 131072 10))] [].

(** A transport with nothing to read. *)
Definition silentServer : Transport := mkTransport [] [].

(** A server that closes the transport after START-OK. *)
Definition droppingServer : Transport :=
  mkTransport
    [inl (methodFrame 0 (connectionStart 0 9 TNil "PLAIN"));
     inr "EOF"]
    [].

(** A transport on which the first write fails. *)
Definition brokenPipe : Transport := mkTransport [] [Some "broken pipe"].

(** A transport on which the server's answer to [connection.close] is
    waiting to be read. *)
Definition closeOkWaiting : Transport :=
  mkTransport [inl (methodFrame 0 connectionCloseOk)] [].

(** A stream that ends with a frame still behind the end. *)
Definition eofServer : Transport :=
  mkTransport [inr "EOF"; inl (heartbeatFrame 0)] [].

(** Server properties that announce [basic.ack] and deny [basic.nack]. *)
Definition ackProperties : Table :=
  TCons "product" (VString "broker")
    (TCons "capabilities"
       (VTable (TCons "basic.nack" (VBool false)
                  (TCons "basic.ack" (VBool true) TNil)))
       TNil).

(** A server that goes through the handshake and sends those properties. *)
Definition capableServer : Transport :=
  mkTransport
    [inl (methodFrame 0 (connectionStart 0 9 ackProperties "PLAIN"));
     inl (methodFrame 0 (connectionTune 0 0 0));
     inl (methodFrame 0 connectionOpenOk)]
    [].

(** A server that drops the stream after TUNE-OK. *)
Definition vhostDropping : Transport :=
  mkTransport
    [inl (methodFrame 0 (connectionStart 0 9 TNil "PLAIN"));
     inl (methodFrame 0 (connectionTune 2047 131072 10));
     inr "EOF"]
    [].

(** A server that sends nothing but the end of the stream. *)
Definition endedStream : Transport := mkTransport [inr "EOF"] [].


(** Ten seconds between heartbeats; frames sent five and twelve seconds
    after the start. *)
Definition busyWakeups : list wakeup :=
  [Sent (5 * Second); Tick (10 * Second); Sent (12 * Second); Tick (20 * Second)].

(* ================================================================== *)
(** * Properties *)

Section Properties.
Context {K : Constants}.

(** ** [pick] *)

(** C1: [pick c s] is the larger of the two when either is 0 and the
    smaller otherwise; this holds for all integers, in particular for
    the non-negative ones. *)
Theorem pick_max_or_min (c s : Z) :
  pick c s = if decide (c = 0 ∨ s = 0) then Z.max c s else Z.min c s.
Proof.
  unfold pick.
  destruct (Z.eqb_spec c 0), (Z.eqb_spec s 0); simpl;
    case_decide; try tauto; destruct (Z.gtb_spec c s); lia.
Qed.

(** ** Relating a connection to what a method makes of it *)

Lemma always_ret {A} R `{!Reflexive R} (a : A) : always R (ret a).
Proof. intros w. reflexivity. Qed.

Lemma always_bind {A B} R `{!Transitive R} (m : M A) (k : A -> M B) :
  always R m -> (forall a, always R (k a)) -> always R (bind m k).
Proof.
  intros Hm Hk w. unfold bind. specialize (Hm w).
  destruct (m w) as [a w'|w']; simpl in *; [|exact Hm].
  etrans; [exact Hm|apply Hk].
Qed.

Lemma always_forEach {A} R `{!PreOrder R} (l : list A) (body : A -> M unit) :
  (forall x, always R (body x)) -> always R (forEach l body).
Proof.
  intros Hb. induction l as [|x l IH]; simpl.
  - apply always_ret, _.
  - apply always_bind; [apply _|apply Hb|intros _; exact IH].
Qed.

Lemma always_block {A} R `{!Reflexive R} : always R (@block A).
Proof. intros w. reflexivity. Qed.

Lemma always_get R `{!Reflexive R} : always R get.
Proof. intros w. reflexivity. Qed.


#[local] Instance extends_preorder : PreOrder extends.
Proof.
  split.
  - intros w. exists []. by rewrite app_nil_r.
  - intros w1 w2 w3 [e1 H1] [e2 H2]. exists (e1 ++ e2).
    by rewrite H2, H1, app_assoc.
Qed.

Lemma trace_extends {A} (m : M A) (w : Connection) :
  extends w (final (m w)) -> log (final (m w)) = log w ++ trace m w.
Proof.
  intros [evs H]. unfold trace. rewrite H.
  by rewrite drop_app_length.
Qed.

Lemma trace_done {A} (m : M A) (w w' : Connection) (a : A) (evs : list event) :
  m w = Done a w' -> log w' = log w ++ evs -> trace m w = evs.
Proof.
  intros Hm Hl. unfold trace. rewrite Hm. simpl. rewrite Hl.
  by rewrite drop_app_length.
Qed.

(** ** The log only grows *)

Lemma extends_emit (ev : event) : always extends (emit ev).
Proof. intros w. exists [ev]. reflexivity. Qed.

Lemma extends_modify (f : Connection -> Connection) :
  (forall w, log (f w) = log w) -> always extends (modify f).
Proof. intros Hf w. exists []. simpl. by rewrite Hf, app_nil_r. Qed.

Lemma extends_WriteFrame (f : frame) : always extends (WriteFrame f).
Proof.
  intros w. unfold WriteFrame.
  destruct (outgoing (conn w)) as [|r rest]; eexists; reflexivity.
Qed.

(** Steps of a proof that a method is [always R]: through [bind], [ret],
    loops and the case analyses of the method, down to the lemmas in the
    hint database [conn]. *)
Create HintDb conn discriminated.

Ltac always_step :=
  first
    [ solve [eauto with conn]
    | apply always_ret; apply _
    | apply always_block; apply _
    | apply always_get; apply _
    | apply always_bind; [apply _| |intros ?]
    | apply always_forEach; [apply _|intros ?]
    | match goal with
      | |- always _ (match ?x with _ => _ end) => destruct x
      | |- always _ (if ?x then _ else _) => destruct x
      | |- always _ (let (_, _) := ?x in _) => destruct x
      | |- always _ (let _ := _ in _) => cbv zeta
      end ].

Ltac always_auto := repeat always_step.

#[local] Hint Resolve extends_emit extends_WriteFrame : conn.
#[local] Hint Extern 1 (always extends (modify _)) =>
  (apply extends_modify; intros ?; reflexivity) : conn.

Lemma extends_destroy (err : option Error) : always extends (destroy err).
Proof. unfold destroy. always_auto. Qed.
#[local] Hint Resolve extends_destroy : conn.

Lemma extends_shutdown (err : option Error) : always extends (shutdown err).
Proof. unfold shutdown. always_auto. Qed.
#[local] Hint Resolve extends_shutdown : conn.

Lemma extends_send (f : frame) : always extends (send f).
Proof. unfold send. always_auto. Qed.
#[local] Hint Resolve extends_send : conn.

Lemma poll_log (w w' : Connection) (s : selected) :
  poll w = Some (s, w') -> log w' = log w.
Proof.
  unfold poll. intros H.
  destruct (errors w), (rpc w); simplify_eq; reflexivity.
Qed.

Lemma extends_selectOnReader (err : Error) : always extends (selectOnReader err).
Proof.
  intros w. unfold selectOnReader.
  destruct (poll w) as [[s w']|] eqn:Hp; exists []; simpl; [|by rewrite app_nil_r].
  rewrite (poll_log _ _ _ Hp). by rewrite app_nil_r.
Qed.
#[local] Hint Resolve extends_selectOnReader : conn.

Lemma extends_call (sel : M selected) req res :
  always extends sel -> always extends (call sel req res).
Proof. intros Hsel. unfold call. always_auto. Qed.
#[local] Hint Resolve extends_call : conn.

Lemma extends_closeWith (err : Error) : always extends (closeWith err).
Proof. unfold closeWith. always_auto. Qed.
#[local] Hint Resolve extends_closeWith : conn.

Lemma extends_dispatch0 (f : frame) : always extends (dispatch0 f).
Proof. unfold dispatch0. always_auto. Qed.

Lemma extends_dispatchClosed (f : frame) : always extends (dispatchClosed f).
Proof. unfold dispatchClosed. always_auto. Qed.
#[local] Hint Resolve extends_dispatch0 extends_dispatchClosed : conn.

Lemma extends_dispatchN (f : frame) : always extends (dispatchN f).
Proof. unfold dispatchN. always_auto. Qed.
#[local] Hint Resolve extends_dispatchN : conn.

Lemma extends_demux (f : frame) : always extends (demux f).
Proof. unfold demux. always_auto. Qed.
#[local] Hint Resolve extends_demux : conn.

Lemma extends_readerTurn r : always extends (readerTurn r).
Proof. unfold readerTurn. always_auto. Qed.
#[local] Hint Resolve extends_readerTurn : conn.

Lemma extends_readerResumes (err : Error) : always extends (readerResumes err).
Proof.
  intros w. unfold readerResumes.
  destruct (poll w) as [[s w']|] eqn:Hp; [|reflexivity].
  match goal with |- context [?m w'] =>
    assert (H : always extends m) by always_auto; destruct (H w') as [evs Hevs]
  end.
  exists evs. rewrite Hevs. by rewrite (poll_log _ _ _ Hp).
Qed.

Lemma extends_reader : always extends reader.
Proof.
  intros w. unfold reader.
  destruct (rpc w); [reflexivity|]. destruct (reading w).
  - destruct (incoming (conn w)) as [|r rest]; [reflexivity|].
    pose proof (extends_readerTurn r (set_conn (mkTransport rest (outgoing (conn w))) w))
      as H.
    destruct (readerTurn r _); exact H.
  - destruct (closing w); [apply extends_readerResumes|reflexivity].
Qed.

Lemma extends_selectReading input : always extends (selectReading input).
Proof.
  induction input as [|r rest IH]; intros w; simpl.
  - destruct (poll w) as [[s w']|] eqn:Hp.
    + exists []. simpl. rewrite (poll_log _ _ _ Hp). by rewrite app_nil_r.
    + destruct (reading w); reflexivity.
  - destruct (poll w) as [[s w']|] eqn:Hp.
    + exists []. simpl. rewrite (poll_log _ _ _ Hp). by rewrite app_nil_r.
    + destruct (reading w); [|reflexivity].
      pose proof (extends_readerTurn r (set_conn (mkTransport rest (outgoing (conn w))) w)) as H.
      destruct (readerTurn r _) as [[] w'|w']; simpl in *.
      * etrans; [exact H|apply IH].
      * exact H.
Qed.

Lemma extends_select : always extends select.
Proof. intros w. apply extends_selectReading. Qed.
#[local] Hint Resolve extends_reader extends_select : conn.

Lemma extends_Close : always extends Close.
Proof. unfold Close. always_auto. Qed.

Lemma extends_NotifyClose c : always extends (NotifyClose c).
Proof. unfold NotifyClose. always_auto. Qed.

Lemma extends_nextChannelId : always extends nextChannelId.
Proof. intros w. exists []. simpl. by rewrite app_nil_r. Qed.
#[local] Hint Resolve extends_Close extends_NotifyClose extends_nextChannelId : conn.

Lemma extends_Channel opened : always extends (Channel_ opened).
Proof. unfold Channel_. always_auto. Qed.

Lemma extends_openVhost config : always extends (openVhost config).
Proof. unfold openVhost. always_auto. Qed.
#[local] Hint Resolve extends_Channel extends_openVhost : conn.

Lemma extends_openTune config auth : always extends (openTune config auth).
Proof. unfold openTune. always_auto. Qed.
#[local] Hint Resolve extends_openTune : conn.

Lemma extends_openStart config : always extends (openStart config).
Proof. unfold openStart. always_auto. Qed.
#[local] Hint Resolve extends_openStart : conn.

Lemma extends_open config : always extends (open config).
Proof. unfold open. always_auto. Qed.
#[local] Hint Resolve extends_open : conn.

(** ** What [shutdown] does *)

Lemma bind_emit {B} (ev : event) (k : unit -> M B) (w : Connection) :
  bind (emit ev) k w = k tt (set_log (log w ++ [ev]) w).
Proof. reflexivity. Qed.

Lemma bind_modify {B} (f : Connection -> Connection) (k : unit -> M B) (w : Connection) :
  bind (modify f) k w = k tt (f w).
Proof. reflexivity. Qed.

Lemma bind_get {B} (k : Connection -> M B) (w : Connection) :
  bind get k w = k w w.
Proof. reflexivity. Qed.

Lemma bind_ret {A B} (a : A) (k : A -> M B) (w : Connection) :
  bind (ret a) k w = k a w.
Proof. reflexivity. Qed.

Lemma bind_assoc {A B C} (m : M A) (k1 : A -> M B) (k2 : B -> M C) (w : Connection) :
  bind (bind m k1) k2 w = bind m (fun a => bind (k1 a) k2) w.
Proof. unfold bind. by destruct (m w). Qed.

Lemma final_bind_pure {A B} (m : M A) (k : A -> M B) (w : Connection) :
  (forall a w', final (k a w') = w') -> final (bind m k w) = final (m w).
Proof. intros Hk. unfold bind. destruct (m w); [apply Hk|done]. Qed.

Lemma bind_done {A B} (m : M A) (k : A -> M B) (w w' : Connection) (a : A) :
  m w = Done a w' -> bind m k w = k a w'.
Proof. intros H. unfold bind. by rewrite H. Qed.

Lemma bind_blocked {A B} (m : M A) (k : A -> M B) (w w' : Connection) :
  m w = Blocked w' -> bind m k w = Blocked w'.
Proof. intros H. unfold bind. by rewrite H. Qed.

Lemma forEach_emit {A} (g : A -> event) (l : list A) (w : Connection) :
  forEach l (fun x => emit (g x)) w = Done tt (set_log (log w ++ map g l) w).
Proof.
  revert w. induction l as [|x l IH]; intros w; simpl.
  - destruct w; unfold ret, set_log; simpl. by rewrite app_nil_r.
  - unfold bind. simpl. rewrite IH. destruct w; unfold set_log; simpl.
    by rewrite <- app_assoc.
Qed.

Lemma forEach_channels (err : option Error) (l : list (Z * Channel)) (w : Connection) :
  exists w',
    forEach l
      (fun '(key, c) =>
         modify (fun w => set_channels (delete key (channels w)) w) >>
         emit (EvChannelShutdown (id c) err)) w = Done tt w'
    /\ log w' = log w ++ map (fun kc : Z * Channel => EvChannelShutdown (id kc.2) err) l
    /\ destructor w' = destructor w
    /\ errors w' = errors w
    /\ closes w' = closes w
    /\ channels w' = foldl (fun m (kc : Z * Channel) => delete kc.1 m) (channels w) l.
Proof.
  revert w. induction l as [|[key c] l IH]; intros w; simpl.
  - exists w. by rewrite app_nil_r.
  - unfold bind at 1. simpl.
    destruct (IH (set_log (log w ++ [EvChannelShutdown (id c) err])
                    (set_channels (delete key (channels w)) w)))
      as (w' & Hrun & Hlog & Hd & He & Hc & Hch).
    exists w'. split; [exact Hrun|]. simpl in *.
    rewrite Hlog, Hd, He, Hc, Hch. by rewrite <- app_assoc.
Qed.

(** Once entered on a connection whose [me.errors] is empty, the function
    given to [me.destructor.Do] runs to its end and makes exactly the
    events of [destroyEvents]. *)
Lemma destroy_done (err : option Error) (w : Connection) :
  errors w = [] ->
  exists w',
    destroy err w = Done tt w'
    /\ log w' = log w ++ destroyEvents err w
    /\ destructor w' = destructor w
    /\ errors w' = match err with Some e => [e] | None => [] end
    /\ closes w' = closes w
    /\ channels w' = foldl (fun m (kc : Z * Channel) => delete kc.1 m)
                           (channels w) (map_to_list (channels w))
    /\ sends w' = false.
Proof.
  intros Herr. unfold destroy, destroyEvents.
  rewrite bind_get.
  set (w1 := set_log (log w ++ match err with
                               | Some e => map (fun c => EvNotify c e) (closes w)
                               | None => []
                               end) w).
  assert (H1 : match err with
               | Some e => forEach (closes w) (fun c => emit (EvNotify c e))
               | None => ret tt
               end w = Done tt w1).
  { subst w1. destruct err; [apply forEach_emit|].
    destruct w; unfold ret, set_log; simpl. by rewrite app_nil_r. }
  rewrite (bind_done _ _ _ _ _ H1), bind_get.
  destruct (forEach_channels err (map_to_list (channels w1)) w1)
    as (w2 & Hrun & Hlog2 & Hd2 & He2 & Hc2 & Hch2).
  rewrite (bind_done _ _ _ _ _ Hrun), bind_get.
  assert (He2' : errors w2 = []) by (rewrite He2; exact Herr).
  destruct err as [e|].
  - destruct (decide _) as [_|Hn]; [|rewrite He2' in Hn; simpl in Hn; lia].
    rewrite bind_assoc, bind_modify, !bind_emit, bind_modify, bind_emit, bind_get,
      forEach_emit.
    eexists. split; [reflexivity|].
    simpl. rewrite Hlog2, Hd2, Hc2, Hch2, He2'. subst w1. simpl.
    repeat split. by rewrite <- !app_assoc.
  - rewrite bind_ret, bind_emit, bind_modify, bind_emit, bind_get, forEach_emit.
    eexists. split; [reflexivity|].
    simpl. rewrite Hlog2, Hd2, Hc2, Hch2, He2'. subst w1. simpl.
    repeat split. by rewrite <- !app_assoc.
Qed.

Lemma shutdown_again (err : option Error) (w : Connection) :
  destructor w = true ->
  shutdown err w = Done tt (set_log (log w ++ [EvShutdown err]) w).
Proof.
  intros Hd. unfold shutdown. rewrite bind_emit, bind_get. simpl.
  by rewrite Hd.
Qed.

Lemma shutdown_first (err : option Error) (w : Connection) :
  destructor w = false ->
  errors w = [] ->
  exists w',
    shutdown err w = Done tt w'
    /\ log w' = log w ++ EvShutdown err :: destroyEvents err w
    /\ destructor w' = true
    /\ errors w' = match err with Some e => [e] | None => [] end
    /\ closes w' = closes w
    /\ sends w' = false.
Proof.
  intros Hd He. unfold shutdown. rewrite bind_emit, bind_get. simpl.
  rewrite Hd, bind_modify.
  destruct (destroy_done err
              (set_destructor true (set_log (log w ++ [EvShutdown err]) w)) He)
    as (w' & Hrun & Hlog & Hd' & He' & Hc & _ & Hs).
  exists w'. split; [exact Hrun|]. simpl in *.
  rewrite Hlog, <- app_assoc. done.
Qed.

(** ** At most one teardown *)


#[local] Instance keeps_preorder P : PreOrder (keeps P).
Proof. split; unfold keeps; [intros w; tauto|intros w1 w2 w3; tauto]. Qed.

Lemma atMostOnce_same (w w' : Connection) :
  destructor w' = destructor w ->
  (errors w = [] -> errors w' = []) ->
  filter teardown (log w') = filter teardown (log w) ->
  atMostOnce w -> atMostOnce w'.
Proof.
  intros Hd He Hl [(H1 & H2 & H3)|(H1 & H2)]; [left|right];
    rewrite Hd, Hl; auto.
Qed.

Lemma once_modify (f : Connection -> Connection) :
  (forall w, destructor (f w) = destructor w) ->
  (forall w, errors (f w) = errors w) ->
  (forall w, log (f w) = log w) ->
  always (keeps atMostOnce) (modify f).
Proof.
  intros Hd He Hl w. red. apply atMostOnce_same; simpl; [apply Hd| |by rewrite Hl].
  by rewrite He.
Qed.

Lemma once_emit (ev : event) :
  teardown ev = false -> always (keeps atMostOnce) (emit ev).
Proof.
  intros Hev w. red. apply atMostOnce_same; simpl; [done..|].
  rewrite filter_app. simpl. rewrite (filter_cons_False _ _ _), filter_nil.
  - by rewrite app_nil_r.
  - rewrite Hev. intros [].
Qed.

Lemma once_WriteFrame (f : frame) : always (keeps atMostOnce) (WriteFrame f).
Proof.
  intros w. red. unfold WriteFrame.
  destruct (outgoing (conn w)) as [|r rest]; apply atMostOnce_same; simpl;
    try done; rewrite filter_app; simpl; by rewrite app_nil_r.
Qed.

#[local] Hint Resolve once_WriteFrame : conn.
#[local] Hint Extern 1 (always (keeps atMostOnce) (modify _)) =>
  (apply once_modify; intros ?; reflexivity) : conn.
#[local] Hint Extern 1 (always (keeps atMostOnce) (emit _)) =>
  (apply once_emit; reflexivity) : conn.

Lemma filter_all {A} (P : A -> Prop) `{!forall x, Decision (P x)} (l : list A) :
  Forall P l -> filter P l = l.
Proof.
  induction 1 as [|x l Hx _ IH]; [done|].
  by rewrite filter_cons_True, IH.
Qed.

Lemma teardown_destroyEvents (err : option Error) (w : Connection) :
  filter teardown (destroyEvents err w) = destroyEvents err w.
Proof.
  apply filter_all. unfold destroyEvents.
  repeat (apply Forall_app; split);
    try (destruct err); repeat constructor;
    apply Forall_map, Forall_true; intros; exact I.
Qed.

Lemma once_shutdown (err : option Error) : always (keeps atMostOnce) (shutdown err).
Proof.
  intros w [(Hd & He & Hl)|(Hd & err0 & w1 & Hl)].
  - destruct (shutdown_first err w Hd He) as (w' & Hrun & Hlog & Hd' & _).
    rewrite Hrun. simpl. right. split; [exact Hd'|].
    exists err, w. rewrite Hlog, filter_app, Hl. simpl.
    apply teardown_destroyEvents.
  - rewrite (shutdown_again err w Hd). simpl. right. split; [exact Hd|].
    exists err0, w1. simpl. rewrite filter_app. simpl. by rewrite app_nil_r.
Qed.
#[local] Hint Resolve once_shutdown : conn.

Lemma once_send (f : frame) : always (keeps atMostOnce) (send f).
Proof. unfold send. always_auto. Qed.
#[local] Hint Resolve once_send : conn.

Lemma once_poll (w w' : Connection) (s : selected) :
  poll w = Some (s, w') -> atMostOnce w -> atMostOnce w'.
Proof.
  unfold poll. intros H.
  destruct (errors w) as [|e rest] eqn:He, (rpc w); simplify_eq;
    apply atMostOnce_same; simpl; try done; by rewrite He.
Qed.

Lemma once_selectOnReader (err : Error) :
  always (keeps atMostOnce) (selectOnReader err).
Proof.
  intros w. red. unfold selectOnReader.
  destruct (poll w) as [[s w']|] eqn:Hp; [|by apply atMostOnce_same].
  exact (once_poll _ _ _ Hp).
Qed.
#[local] Hint Resolve once_selectOnReader : conn.

Lemma once_call (sel : M selected) req res :
  always (keeps atMostOnce) sel -> always (keeps atMostOnce) (call sel req res).
Proof. intros Hsel. unfold call. always_auto. Qed.
#[local] Hint Resolve once_call : conn.

Lemma once_closeWith (err : Error) : always (keeps atMostOnce) (closeWith err).
Proof. unfold closeWith. always_auto. Qed.
#[local] Hint Resolve once_closeWith : conn.

Lemma once_dispatch0 (f : frame) : always (keeps atMostOnce) (dispatch0 f).
Proof. unfold dispatch0. always_auto. Qed.

Lemma once_dispatchClosed (f : frame) : always (keeps atMostOnce) (dispatchClosed f).
Proof. unfold dispatchClosed. always_auto. Qed.
#[local] Hint Resolve once_dispatch0 once_dispatchClosed : conn.

Lemma once_dispatchN (f : frame) : always (keeps atMostOnce) (dispatchN f).
Proof. unfold dispatchN. always_auto. Qed.
#[local] Hint Resolve once_dispatchN : conn.

Lemma once_demux (f : frame) : always (keeps atMostOnce) (demux f).
Proof. unfold demux. always_auto. Qed.
#[local] Hint Resolve once_demux : conn.

Lemma once_readerTurn r : always (keeps atMostOnce) (readerTurn r).
Proof. unfold readerTurn. always_auto. Qed.
#[local] Hint Resolve once_readerTurn : conn.

Lemma once_turn r rest (w : Connection) :
  atMostOnce w ->
  atMostOnce
    (match readerTurn r (set_conn (mkTransport rest (outgoing (conn w))) w) with
     | Done _ w' => w'
     | Blocked w' => set_reading false w'
     end).
Proof.
  intros H.
  assert (H0 : atMostOnce (set_conn (mkTransport rest (outgoing (conn w))) w))
    by (revert H; by apply atMostOnce_same).
  pose proof (once_readerTurn r _ H0) as H1.
  destruct (readerTurn r _) as [[] w'|w']; simpl in H1; [exact H1|].
  revert H1. by apply atMostOnce_same.
Qed.

Lemma once_readerResumes (err : Error) :
  always (keeps atMostOnce) (readerResumes err).
Proof.
  intros w H. unfold readerResumes.
  destruct (poll w) as [[s w']|] eqn:Hp; [|exact H].
  match goal with |- context [?m w'] =>
    assert (Hm : always (keeps atMostOnce) m) by always_auto
  end.
  apply Hm. exact (once_poll _ _ _ Hp H).
Qed.

Lemma once_reader : always (keeps atMostOnce) reader.
Proof.
  intros w H. unfold reader.
  destruct (rpc w); [exact H|]. destruct (reading w).
  - destruct (incoming (conn w)) as [|r rest]; [exact H|].
    pose proof (once_turn r rest w H) as H'.
    destruct (readerTurn r _); exact H'.
  - destruct (closing w); [by apply once_readerResumes|exact H].
Qed.

Lemma once_selectReading input : always (keeps atMostOnce) (selectReading input).
Proof.
  induction input as [|r rest IH]; intros w H; simpl.
  - destruct (poll w) as [[s w']|] eqn:Hp; [exact (once_poll _ _ _ Hp H)|].
    destruct (reading w); exact H.
  - destruct (poll w) as [[s w']|] eqn:Hp; [exact (once_poll _ _ _ Hp H)|].
    destruct (reading w); [|exact H].
    pose proof (once_turn r rest w H) as H'.
    destruct (readerTurn r _) as [[] w'|w']; [by apply IH|exact H'].
Qed.

Lemma once_select : always (keeps atMostOnce) select.
Proof. intros w. apply once_selectReading. Qed.
#[local] Hint Resolve once_reader once_select : conn.

Lemma once_Close : always (keeps atMostOnce) Close.
Proof. unfold Close. always_auto. Qed.

Lemma once_NotifyClose c : always (keeps atMostOnce) (NotifyClose c).
Proof. unfold NotifyClose. always_auto. Qed.

Lemma once_nextChannelId : always (keeps atMostOnce) nextChannelId.
Proof. intros w. red. by apply atMostOnce_same. Qed.
#[local] Hint Resolve once_Close once_NotifyClose once_nextChannelId : conn.

Lemma once_Channel opened : always (keeps atMostOnce) (Channel_ opened).
Proof. unfold Channel_. always_auto. Qed.

Lemma once_openVhost config : always (keeps atMostOnce) (openVhost config).
Proof. unfold openVhost. always_auto. Qed.
#[local] Hint Resolve once_Channel once_openVhost : conn.

Lemma once_openTune config auth : always (keeps atMostOnce) (openTune config auth).
Proof. unfold openTune. always_auto. Qed.
#[local] Hint Resolve once_openTune : conn.

Lemma once_openStart config : always (keeps atMostOnce) (openStart config).
Proof. unfold openStart. always_auto. Qed.
#[local] Hint Resolve once_openStart : conn.

Lemma once_open config : always (keeps atMostOnce) (open config).
Proof. unfold open. always_auto. Qed.
#[local] Hint Resolve once_open : conn.

Lemma once_perform (s : step) (w : Connection) :
  atMostOnce w -> atMostOnce (perform s w).
Proof.
  destruct s; unfold perform.
  - revert w. change (always (keeps atMostOnce)
      (emit (EvGo GoReader) >> modify (set_reading true) >> open config)).
    always_auto.
  - apply once_reader.
  - apply once_send.
  - apply once_Close.
  - apply once_shutdown.
  - apply once_Channel.
  - apply once_NotifyClose.
Qed.

Lemma once_run (steps : list step) (w : Connection) :
  atMostOnce w -> atMostOnce (run steps w).
Proof.
  revert w. induction steps as [|s steps IH]; intros w H; simpl; [exact H|].
  apply IH, once_perform, H.
Qed.

(** C2: on a connection on which [shutdown] has not run, whatever the
    goroutines then do and in whatever order (the handshake, turns of the
    reader loop with their read errors and server closes, sends with
    their write errors, [Close], direct calls of [shutdown], [Channel],
    [NotifyClose]), the events of the function given to
    [me.destructor.Do] in the whole log are those of at most one run of
    it; and a call of [shutdown] on a connection whose destructor has
    fired only records that it was called. *)
Theorem shutdown_runs_once (w0 : Connection) (steps : list step) :
  destructor w0 = false ->
  errors w0 = [] ->
  filter teardown (log w0) = [] ->
  atMostOnce (run steps w0)
  /\ forall (w : Connection) (err : option Error),
       destructor w = true ->
       shutdown err w = Done tt (set_log (log w ++ [EvShutdown err]) w).
Proof.
  intros Hd He Hl. split.
  - apply once_run. left. auto.
  - intros w err. apply shutdown_again.
Qed.

(** ** Subscribers *)

Lemma heard_app (c : chanref) (l1 l2 : list event) :
  heard c (l1 ++ l2) = heard c l1 ++ heard c l2.
Proof. apply omap_app. Qed.

Lemma heard_notify (c : chanref) (e : Error) (l : list chanref) :
  heard c (map (fun c' => EvNotify c' e) l)
  = replicate (length (filter (fun c' => c' = c) l)) (Some e).
Proof.
  induction l as [|c' l IH]; [done|].
  cbn [map]. unfold heard in *. cbn [omap list_omap]. rewrite filter_cons.
  destruct (decide (c' = c)); simpl; by rewrite IH.
Qed.

Lemma heard_close (c : chanref) (l : list chanref) :
  heard c (map EvCloseNotify l)
  = replicate (length (filter (fun c' => c' = c) l)) None.
Proof.
  induction l as [|c' l IH]; [done|].
  cbn [map]. unfold heard in *. cbn [omap list_omap]. rewrite filter_cons.
  destruct (decide (c' = c)); simpl; by rewrite IH.
Qed.

Lemma heard_channels (c : chanref) (err : option Error) (l : list (Z * Channel)) :
  heard c (map (fun kc : Z * Channel => EvChannelShutdown (id kc.2) err) l) = [].
Proof. induction l as [|kc l IH]; [done|exact IH]. Qed.

Lemma NotifyClose_registers (c : chanref) (w : Connection) :
  registered c (final (NotifyClose c w)) = S (registered c w).
Proof.
  unfold registered. simpl. rewrite filter_app, length_app. simpl.
  rewrite filter_cons_True by done. simpl. lia.
Qed.

Lemma deliver_app (ls : listeners) (l1 l2 : list event) :
  deliver ls (l1 ++ l2)
  = match deliver ls l1 with
    | Delivered ls' => deliver ls' l2
    | d => d
    end.
Proof.
  revert ls. induction l1 as [|ev l1 IH]; intros ls; [done|].
  destruct ev; simpl; try apply IH.
  - destruct (closed (ls c)); [done|]. destruct (room (ls c)); [done|apply IH].
  - destruct (closed (ls c)); [done|apply IH].
Qed.

Lemma deliver_channels (ls : listeners) (err : option Error) (l : list (Z * Channel)) :
  deliver ls (map (fun kc : Z * Channel => EvChannelShutdown (id kc.2) err) l)
  = Delivered ls.
Proof. induction l as [|kc l IH]; [done|exact IH]. Qed.

Lemma deliver_notify (e : Error) (l : list chanref) (ls : listeners) :
  NoDup l ->
  (forall c, c ∈ l -> closed (ls c) = false /\ (0 < room (ls c))%nat) ->
  exists ls',
    deliver ls (map (fun c => EvNotify c e) l) = Delivered ls'
    /\ (forall c, c ∈ l ->
          received (ls' c) = received (ls c) ++ [e] /\ closed (ls' c) = false)
    /\ (forall c, c ∉ l -> ls' c = ls c).
Proof.
  revert ls. induction l as [|c l IH]; intros ls Hnd Hok.
  - exists ls. split; [done|]. split; [|done].
    intros c Hc. by apply elem_of_nil in Hc.
  - apply NoDup_cons in Hnd as [Hc Hnd].
    destruct (Hok c) as [Hcl Hroom]; [left|].
    simpl. rewrite Hcl. destruct (room (ls c)) as [|n] eqn:Hr; [lia|].
    set (ls1 := listen c _ ls).
    assert (Hother : forall c', c' <> c -> ls1 c' = ls c').
    { intros c' Hne. unfold ls1, listen. by rewrite decide_False. }
    destruct (IH ls1 Hnd) as (ls' & Hd & Hin & Hout).
    { intros c' Hc'. rewrite Hother by (intros ->; done). apply Hok. by right. }
    exists ls'. split; [exact Hd|]. split.
    + intros c' Hc'. apply elem_of_cons in Hc' as [->|Hc'].
      * rewrite (Hout c Hc). unfold ls1, listen. by rewrite decide_True.
      * destruct (Hin c' Hc') as [H1 H2].
        rewrite Hother in H1 by (intros ->; done). done.
    + intros c' Hc'. apply not_elem_of_cons in Hc' as [Hne Hc'].
      rewrite (Hout c' Hc'). by apply Hother.
Qed.

Lemma deliver_close (l : list chanref) (ls : listeners) :
  NoDup l ->
  (forall c, c ∈ l -> closed (ls c) = false) ->
  exists ls',
    deliver ls (map EvCloseNotify l) = Delivered ls'
    /\ (forall c, c ∈ l ->
          received (ls' c) = received (ls c) /\ closed (ls' c) = true)
    /\ (forall c, c ∉ l -> ls' c = ls c).
Proof.
  revert ls. induction l as [|c l IH]; intros ls Hnd Hok.
  - exists ls. split; [done|]. split; [|done].
    intros c Hc. by apply elem_of_nil in Hc.
  - apply NoDup_cons in Hnd as [Hc Hnd].
    simpl. rewrite (Hok c) by left.
    set (ls1 := listen c _ ls).
    assert (Hother : forall c', c' <> c -> ls1 c' = ls c').
    { intros c' Hne. unfold ls1, listen. by rewrite decide_False. }
    destruct (IH ls1 Hnd) as (ls' & Hd & Hin & Hout).
    { intros c' Hc'. rewrite Hother by (intros ->; done). apply Hok. by right. }
    exists ls'. split; [exact Hd|]. split.
    + intros c' Hc'. apply elem_of_cons in Hc' as [->|Hc'].
      * rewrite (Hout c Hc). unfold ls1, listen. by rewrite decide_True.
      * destruct (Hin c' Hc') as [H1 H2].
        rewrite Hother in H1 by (intros ->; done). done.
    + intros c' Hc'. apply not_elem_of_cons in Hc' as [Hne Hc'].
      rewrite (Hout c' Hc'). by apply Hother.
Qed.

(* One run of the function given to [me.destructor.Do], for subscribers
   that are registered once each, with channels that are open and, when
   there is an error to send, have room for it. *)
Lemma deliver_destroyEvents (err : option Error) (w : Connection) (ls : listeners) :
  NoDup (closes w) ->
  (forall c, c ∈ closes w ->
     closed (ls c) = false /\ (err <> None -> (0 < room (ls c))%nat)) ->
  exists ls',
    deliver ls (destroyEvents err w) = Delivered ls'
    /\ (forall c, c ∈ closes w ->
          received (ls' c)
          = received (ls c) ++ match err with Some e => [e] | None => [] end
          /\ closed (ls' c) = true)
    /\ (forall c, c ∉ closes w -> ls' c = ls c).
Proof.
  intros Hnd Hok. unfold destroyEvents.
  destruct err as [e|].
  - destruct (deliver_notify e (closes w) ls Hnd) as (ls1 & Hd1 & Hin1 & Hout1).
    { intros c Hc. destruct (Hok c Hc) as [H1 H2]. split; [exact H1|by apply H2]. }
    destruct (deliver_close (closes w) ls1 Hnd) as (ls2 & Hd2 & Hin2 & Hout2).
    { intros c Hc. by destruct (Hin1 c Hc). }
    exists ls2. split.
    + rewrite deliver_app, Hd1, deliver_app, deliver_channels. exact Hd2.
    + split.
      * intros c Hc. destruct (Hin1 c Hc) as [H1 _], (Hin2 c Hc) as [H2 H3].
        by rewrite H2, H1.
      * intros c Hc. by rewrite (Hout2 c Hc), (Hout1 c Hc).
  - destruct (deliver_close (closes w) ls Hnd) as (ls2 & Hd2 & Hin2 & Hout2).
    { intros c Hc. by destruct (Hok c Hc). }
    exists ls2. split.
    + simpl app. rewrite deliver_app, deliver_channels. exact Hd2.
    + split; [|exact Hout2].
      intros c Hc. destruct (Hin2 c Hc) as [H2 H3]. by rewrite H2, app_nil_r.
Qed.


(** ** Dispatch *)

Lemma WriteFrame_done (f : frame) (w : Connection) :
  exists r w1,
    WriteFrame f w = Done r w1
    /\ log w1 = log w ++ [EvWrite f r]
    /\ destructor w1 = destructor w
    /\ errors w1 = errors w.
Proof.
  unfold WriteFrame.
  destruct (outgoing (conn w)) as [|r rest]; eexists _, _; split; reflexivity || done.
Qed.

Lemma shutdown_done (err : option Error) (w : Connection) :
  (destructor w = false -> errors w = []) ->
  exists w' evs,
    shutdown err w = Done tt w'
    /\ log w' = log w ++ EvShutdown err :: evs
    /\ destructor w' = true.
Proof.
  intros Hs. destruct (destructor w) eqn:Hd.
  - eexists _, []. rewrite (shutdown_again err w Hd). done.
  - destruct (shutdown_first err w Hd (Hs eq_refl)) as (w' & Hrun & Hlog & Hd' & _).
    by eexists _, _.
Qed.

Lemma shutdown_trace (err : option Error) (w : Connection) :
  exists evs, log (final (shutdown err w)) = log w ++ EvShutdown err :: evs.
Proof.
  unfold shutdown. rewrite bind_emit.
  match goal with |- context [final (?m ?w1)] =>
    assert (H : always extends m) by always_auto;
    destruct (H w1) as [evs Hevs]
  end.
  exists evs. rewrite Hevs. simpl. by rewrite <- app_assoc.
Qed.

(** C5: a method frame carrying [connection.close] with reply code [k]
    and reply text [t] makes [dispatch0] first hand a
    [connection.close-ok] frame on channel 0 to the writer, and only
    later call [shutdown] with the error built from [k] and [t].  When
    the write succeeded nothing happens in between; when it failed,
    [send] has called [shutdown] itself, after the write. *)
Theorem dispatch0_close (w : Connection) (c k : Z) (t : string) :
  (destructor w = false -> errors w = []) ->
  exists r pre post,
    trace (dispatch0 (methodFrame c (connectionClose k t))) w
    = EvWrite (methodFrame 0 connectionCloseOk) r
        :: pre ++ EvShutdown (Some (newError k t)) :: post
    /\ match r with
       | None => pre = []
       | Some msg =>
           exists evs, pre = EvShutdown (Some (mkError FrameError msg)) :: evs
       end.
Proof.
  intros Hs. unfold trace, dispatch0, send.
  destruct (WriteFrame_done (methodFrame 0 connectionCloseOk) w)
    as (r & w1 & Hw & Hlog1 & Hd1 & He1).
  rewrite bind_assoc, (bind_done _ _ _ _ _ Hw).
  destruct r as [msg|].
  - destruct (shutdown_done (Some (mkError FrameError msg)) w1)
      as (w2 & evs & Hrun & Hlog2 & Hd2); [by rewrite Hd1, He1|].
    rewrite bind_assoc, (bind_done _ _ _ _ _ Hrun), bind_ret.
    destruct (shutdown_trace (Some (newError k t)) w2) as [post Hpost].
    exists (Some msg), (EvShutdown (Some (mkError FrameError msg)) :: evs), post.
    split; [|by exists evs].
    rewrite Hpost, Hlog2, Hlog1, <- !app_assoc. simpl.
    by rewrite drop_app_length.
  - rewrite bind_ret.
    destruct (shutdown_trace (Some (newError k t)) w1) as [post Hpost].
    exists None, [], post. split; [|done].
    rewrite Hpost, Hlog1, <- !app_assoc. simpl.
    by rewrite drop_app_length.
Qed.


#[local] Instance sameWrites_preorder : PreOrder sameWrites.
Proof.
  split; unfold sameWrites; [done|].
  intros w1 w2 w3 H1 H2. by rewrite H2.
Qed.

Lemma sameWrites_emit (ev : event) :
  writes [ev] = [] -> always sameWrites (emit ev).
Proof.
  intros Hev w. unfold sameWrites, writes in *. simpl.
  by rewrite omap_app, Hev, app_nil_r.
Qed.

Lemma sameWrites_modify (f : Connection -> Connection) :
  (forall w, log (f w) = log w) -> always sameWrites (modify f).
Proof. intros Hf w. unfold sameWrites. simpl. by rewrite Hf. Qed.

#[local] Hint Extern 1 (always sameWrites (modify _)) =>
  (apply sameWrites_modify; intros ?; reflexivity) : conn.
#[local] Hint Extern 1 (always sameWrites (emit _)) =>
  (apply sameWrites_emit; reflexivity) : conn.

Lemma sameWrites_shutdown (err : option Error) : always sameWrites (shutdown err).
Proof. unfold shutdown, destroy. always_auto. Qed.

Lemma writes_app (l1 l2 : list event) : writes (l1 ++ l2) = writes l1 ++ writes l2.
Proof. apply omap_app. Qed.

Lemma shutdown_writes (err : option Error) (w : Connection) (evs : list event) :
  log (final (shutdown err w)) = log w ++ evs -> writes evs = [].
Proof.
  intros Hevs. pose proof (sameWrites_shutdown err w) as Hsw.
  unfold sameWrites in Hsw. rewrite Hevs, writes_app in Hsw.
  apply (app_inv_head (writes (log w))). by rewrite app_nil_r.
Qed.


Lemma fired_emit (ev : event) : always (keeps fired) (emit ev).
Proof. intros w H. exact H. Qed.

Lemma fired_modify (f : Connection -> Connection) :
  (forall w, destructor (f w) = destructor w) -> always (keeps fired) (modify f).
Proof. intros Hf w H. unfold fired. simpl. by rewrite Hf. Qed.

#[local] Hint Resolve fired_emit : conn.
#[local] Hint Extern 1 (always (keeps fired) (modify _)) =>
  (apply fired_modify; intros ?; reflexivity) : conn.

Lemma fired_destroy (err : option Error) : always (keeps fired) (destroy err).
Proof. unfold destroy. always_auto. Qed.

Lemma shutdown_fired (err : option Error) (w w' : Connection) :
  shutdown err w = Done tt w' -> destructor w' = true.
Proof.
  unfold shutdown. rewrite bind_emit, bind_get. simpl.
  destruct (destructor w) eqn:Hd.
  - intros [= <-]. exact Hd.
  - rewrite bind_modify. intros H.
    pose proof (fired_destroy err _ (eq_refl : fired (set_destructor true
      (set_log (log w ++ [EvShutdown err]) w)))) as Hf.
    rewrite H in Hf. exact Hf.
Qed.

Lemma closeWith_fired (err : Error) (w w' : Connection) (r : option error) :
  closeWith err w = Done r w' -> destructor w' = true.
Proof.
  unfold closeWith, bind.
  destruct (call _ _ _ w) as [a w1|w1]; [|done].
  destruct (shutdown (Some err) w1) as [[] w2|w2] eqn:Hs; [|done].
  intros [= _ <-]. by apply shutdown_fired in Hs.
Qed.

Lemma send_first (A : Type) (f : frame) (k : option string -> M A) (w : Connection) :
  (forall a, always extends (k a)) ->
  exists r rest, log (final (bind (send f) k w)) = log w ++ EvWrite f r :: rest.
Proof.
  intros Hk. unfold send. rewrite bind_assoc.
  destruct (WriteFrame_done f w) as (r & w1 & Hw & Hlog1 & _).
  rewrite (bind_done _ _ _ _ _ Hw).
  match goal with |- context [final (?m w1)] =>
    assert (H : always extends m) by (destruct r; always_auto);
    destruct (H w1) as [evs Hevs]
  end.
  exists r, evs. rewrite Hevs, Hlog1, <- app_assoc. done.
Qed.





(** ** RPC on channel 0 *)

Lemma assign_Some (msg : message) (res res' : list message) :
  assign msg res = Some res' ->
  existsb (sameType msg) res = true
  /\ exists pre try post,
       res = pre ++ try :: post
       /\ forallb (fun x => negb (sameType msg x)) pre = true
       /\ sameType msg try = true
       /\ res' = pre ++ msg :: post.
Proof.
  revert res'. induction res as [|x res IH]; intros res'; simpl; [done|].
  destruct (sameType msg x) eqn:Hx.
  - intros [= <-]. split; [done|]. by exists [], x, res.
  - destruct (assign msg res) as [r|]; simpl; [|done].
    intros [= <-]. destruct (IH r eq_refl) as (He & pre & try & post & -> & Hpre & Htry & ->).
    split; [done|]. exists (x :: pre), try, post. simpl. by rewrite Hx, Hpre.
Qed.

Lemma assign_None (msg : message) (res : list message) :
  assign msg res = None -> existsb (sameType msg) res = false.
Proof.
  induction res as [|x res IH]; simpl; [done|].
  destruct (sameType msg x); [done|].
  destruct (assign msg res); simpl; [done|]. intros _. by apply IH.
Qed.

(** C6: a [call] whose request, if any, was written and whose [select]
    then received [msg] from [me.rpc].  When [msg] has the type of one of
    the [res], [call] returns nil and [msg] has been copied over the
    first [res] of its type, the others being as they were; when it has
    the type of none of them, [call] returns [ErrCommandInvalid] and the
    [res] are as they were. *)
Theorem call_rpc_message (sel : M selected) (req : option message)
    (res : list message) (msg : message) (w w1 w2 : Connection) :
  match req with
  | Some r => send (methodFrame 0 r)
  | None => ret None
  end w = Done None w1 ->
  sel w1 = Done (FromRpc msg) w2 ->
  if existsb (sameType msg) res
  then exists pre try post,
         res = pre ++ try :: post
         /\ forallb (fun x => negb (sameType msg x)) pre = true
         /\ sameType msg try = true
         /\ call sel req res w = Done (None, pre ++ msg :: post) w2
  else call sel req res w = Done (Some (AmqpError ErrCommandInvalid), res) w2.
Proof.
  intros Hreq Hsel.
  assert (Hcall : call sel req res w =
                  match assign msg res with
                  | Some res' => Done (None, res') w2
                  | None => Done (Some (AmqpError ErrCommandInvalid), res) w2
                  end).
  { unfold call. rewrite (bind_done _ _ _ _ _ Hreq), (bind_done _ _ _ _ _ Hsel).
    by destruct (assign msg res). }
  destruct (assign msg res) as [res'|] eqn:Ha.
  - destruct (assign_Some _ _ _ Ha) as (-> & pre & try & post & H1 & H2 & H3 & ->).
    by exists pre, try, post.
  - by rewrite (assign_None _ _ Ha).
Qed.

(** ** Handshake *)

Lemma openTune_fails (config : Config) (auth : Authentication)
    (w w' : Connection) (e : error) (res : list message) :
  call select (Some (connectionStartOk (Mechanism auth) (Response auth)))
    [connectionTune 0 0 0] w = Done (Some e, res) w' ->
  openTune config auth w = Done (Some (AmqpError ErrCredentials)) w'.
Proof. intros H. unfold openTune. by rewrite (bind_done _ _ _ _ _ H). Qed.

(** C7: [Open] on a transport and a config with which the protocol
    header is written, START is received and a SASL mechanism is chosen.
    If the [call] that sends START-OK and awaits TUNE then returns an
    error, whatever the error, [Open] returns [ErrCredentials], with the
    connection as that [call] left it: TUNE-OK and OPEN are not sent and
    the handshake does not complete. *)
Theorem Open_Credentials (conn : Transport) (config : Config)
    (w0 w1 w2 : Connection) (res1 res2 : list message)
    (auth : Authentication) (e : error) :
  let st := hd (connectionStart 0 0 TNil "") res1 in
  (emit (EvGo GoReader) >> modify (set_reading true) >> send protocolHeader)
    (connect conn) = Done None w0 ->
  call select None [connectionStart 0 0 TNil ""] w0 = Done (None, res1) w1 ->
  pickSASLMechanism (SASL config) (Split (start.Mechanisms st) Ascii.Space)
    = Some auth ->
  call select (Some (connectionStartOk (Mechanism auth) (Response auth)))
    [connectionTune 0 0 0]
    (set_Config (set_SASL [auth] (Config_ w1))
       (set_Properties (start.ServerProperties st)
          (set_Minor (start.VersionMinor st)
             (set_Major (start.VersionMajor st) w1))))
    = Done (Some e, res2) w2 ->
  Open conn config = Some (Some w2, Some (AmqpError ErrCredentials)).
Proof.
  intros st Hhdr Hstart Hsasl Htune.
  unfold Open, open.
  rewrite <- !bind_assoc. rewrite (bind_done _ _ _ _ _ Hhdr).
  unfold openStart. rewrite (bind_done _ _ _ _ _ Hstart). cbn [fst snd].
  rewrite !bind_modify. fold st. rewrite Hsasl, bind_modify.
  by rewrite (openTune_fails _ _ _ _ _ _ Htune).
Qed.

(* [Open] returns [me] as it built it: never nil, with the reader started
   before anything else. *)
Lemma Open_nonnil (conn : Transport) (config : Config)
    (me : option Connection) (err : option error) :
  Open conn config = Some (me, err) ->
  exists w rest, me = Some w /\ log w = EvGo GoReader :: rest.
Proof.
  unfold Open. rewrite bind_emit.
  match goal with |- context [?m ?w1] =>
    match m with bind _ _ =>
      assert (H : always extends m) by always_auto;
      destruct (H w1) as [evs Hevs]; destruct (m w1) as [e w'|w']
    end
  end; [|done].
  intros [= <- <-]. exists w', evs. split; [done|]. exact Hevs.
Qed.

(** ** Heartbeat negotiation *)

(** With a client interval under one second the rule of [pick] takes the
    interval the server offers. *)
Lemma heartbeat_of_server (h s : Z) :
  - Second < h < Second ->
  0 <= s < 2 ^ 16 ->
  int64 (Second * pick (h ÷ Second) s) = s * Second.
Proof.
  intros Hh Hs.
  assert (Hq : h ÷ Second = 0) by (apply Z.quot_small_iff; unfold Second in *; lia).
  rewrite Hq. unfold pick. simpl.
  destruct (Z.gtb_spec 0 s); [lia|].
  unfold int64, Second. change (2 ^ 63) with 9223372036854775808.
  change (2 ^ 64) with 18446744073709551616.
  change (2 ^ 16) with 65536 in Hs.
  rewrite Z.mod_small by lia. lia.
Qed.

(** ** Channel ids *)

Lemma Channel_sequence (opened : option error) (w : Connection) :
  sequence (final (Channel_ opened w)) = uint32 (sequence w + 1).
Proof. reflexivity. Qed.

Lemma allocate_sequence (n : nat) (w : Connection) :
  0 <= sequence w < 2 ^ 32 ->
  sequence (allocate n w) = uint32 (sequence w + Z.of_nat n).
Proof.
  intros Hw. induction n as [|n IH].
  - simpl. unfold uint32. rewrite Z.add_0_r, Z.mod_small; done.
  - cbn [allocate]. rewrite Channel_sequence, IH.
    unfold uint32. rewrite Zplus_mod_idemp_l. f_equal. lia.
Qed.

Lemma allocate_fresh (conn : Transport) (n : nat) :
  Z.of_nat n < 4294967296 ->
  sequence (allocate n (connect conn)) = Z.of_nat n.
Proof.
  intros Hn. rewrite allocate_sequence by (simpl; lia).
  simpl. unfold uint32. change (2 ^ 32) with 4294967296.
  apply Z.mod_small. lia.
Qed.

(** The ids of the first 65535 channels are 1, 2, ..., 65535. *)
Lemma first_ids (conn : Transport) (n : nat) :
  Z.of_nat n < 65535 ->
  exists w',
    nextChannelId (allocate n (connect conn)) = Done (Z.of_nat n + 1) w'
    /\ Z.of_nat n + 1 <> 0.
Proof.
  intros Hn. eexists. split; [|lia].
  unfold nextChannelId. rewrite allocate_fresh by lia.
  unfold uint32, uint16.
  change (2 ^ 32) with 4294967296. change (2 ^ 16) with 65536.
  rewrite (Z.mod_small _ 4294967296) by lia.
  rewrite (Z.mod_small _ 65536) by lia. reflexivity.
Qed.

(** C4: what the code does on the [Channel()] that follows 65535 others
    on a new connection: the counter reaches 65536, [nextChannelId]
    returns its low 16 bits, which are 0, and the channel is put in the
    registry under id 0. *)
Theorem channel_id_wraps (conn : Transport) (n : nat) :
  Z.of_nat n = 65535 ->
  nextChannelId (allocate n (connect conn))
    = Done 0 (set_sequence 65536 (allocate n (connect conn)))
  /\ channels (final (Channel_ None (allocate n (connect conn)))) !! 0
    = Some (newChannel 0).
Proof.
  intros Hn65535.
  assert (Hs : sequence (allocate n (connect conn)) = 65535)
    by (rewrite allocate_fresh; lia).
  generalize dependent (allocate n (connect conn)). intros w Hs.
  assert (Hn : nextChannelId w = Done 0 (set_sequence 65536 w)).
  { unfold nextChannelId. rewrite Hs. reflexivity. }
  split; [exact Hn|].
  unfold Channel_. rewrite (bind_done _ _ _ _ _ Hn), bind_modify, bind_emit.
  simpl. apply lookup_insert_eq.
Qed.

(* ================================================================== *)
(** * Further properties of the connection *)

(** ** More on [pick] *)

(** [pick] does not depend on which side is the client. *)
Theorem pick_comm (c s : Z) : pick c s = pick s c.
Proof.
  unfold pick.
  destruct (Z.eqb_spec c 0), (Z.eqb_spec s 0); simpl;
    destruct (Z.gtb_spec c s), (Z.gtb_spec s c); lia.
Qed.

(** The negotiated value is one of the two offers and is never above a
    limit that either side has set. *)
Theorem pick_limits (c s : Z) :
  (pick c s = c \/ pick c s = s)
  /\ (0 < c -> pick c s <= c)
  /\ (0 < s -> pick c s <= s).
Proof.
  unfold pick.
  destruct (Z.eqb_spec c 0), (Z.eqb_spec s 0); simpl;
    destruct (Z.gtb_spec c s); lia.
Qed.

(** Between offers that are not negative, the result is "no limit" only
    when both sides offer no limit. *)
Theorem pick_zero (c s : Z) :
  0 <= c -> 0 <= s -> (pick c s = 0 <-> c = 0 /\ s = 0).
Proof.
  intros Hc Hs. unfold pick.
  destruct (Z.eqb_spec c 0), (Z.eqb_spec s 0); simpl;
    destruct (Z.gtb_spec c s); lia.
Qed.

(** ** More on [send] *)

(** [send] hands its frame to the writer once and returns what the write
    returned.  When the write succeeds, [send] returns nil and the
    connection is as it was but for the transport and the log, which has
    the write and nothing else: [shutdown] is not called.  When the write
    fails with [msg], [send] calls [shutdown] with [FrameError] and [msg]
    right after the write, and writes nothing more; on a connection
    without subscribers it then returns the error of the write, the
    connection has been shut down and, if it was not before, what is in
    [me.errors] is that [FrameError]. *)
Theorem send_contract (f : frame) (w : Connection) :
  (destructor w = false -> errors w = []) ->
  match hd None (outgoing (conn w)) with
  | None =>
      send f w
      = Done None
          (set_log (log w ++ [EvWrite f None])
             (set_conn (mkTransport (incoming (conn w)) (tail (outgoing (conn w))))
                w))
  | Some msg =>
      (exists evs,
         trace (send f) w
         = EvWrite f (Some msg) :: EvShutdown (Some (mkError FrameError msg)) :: evs)
      /\ writes (trace (send f) w) = [f]
      /\ (closes w = [] ->
          exists w',
            send f w = Done (Some msg) w'
            /\ destructor w' = true
            /\ (destructor w = false -> errors w' = [mkError FrameError msg]))
  end.
Proof.
  intros Hs.
  destruct (hd None (outgoing (conn w))) as [msg|] eqn:Hout.
  - assert (Hw : WriteFrame f w
                 = Done (Some msg)
                     (set_log (log w ++ [EvWrite f (Some msg)])
                        (set_conn (mkTransport (incoming (conn w))
                                     (tail (outgoing (conn w)))) w))).
    { unfold WriteFrame. destruct (outgoing (conn w)) as [|o outs]; simpl in *;
        by subst. }
    set (e := Some (mkError FrameError msg)).
    set (w1 := set_log _ _) in Hw.
    destruct (shutdown_trace e w1) as [evs Hevs].
    assert (Htrace : trace (send f) w = EvWrite f (Some msg) :: EvShutdown e :: evs).
    { unfold trace, send. rewrite (bind_done _ _ _ _ _ Hw).
      rewrite final_bind_pure by done. fold e. rewrite Hevs. simpl.
      by rewrite <- app_assoc, drop_app_length. }
    split; [by exists evs|]. split.
    + rewrite Htrace.
      change (writes ([EvWrite f (Some msg)] ++ EvShutdown e :: evs) = [f]).
      by rewrite writes_app, (shutdown_writes e w1 _ Hevs).
    + intros _. unfold send. rewrite (bind_done _ _ _ _ _ Hw). fold e.
      destruct (destructor w) eqn:Hd.
      * rewrite (bind_done _ _ _ _ _ (shutdown_again e w1 Hd)).
        eexists. split; [reflexivity|]. split; [exact Hd|]. intros H. discriminate H.
      * destruct (shutdown_first e w1 Hd) as (w2 & Hrun & _ & Hd2 & He2 & _);
          [by apply Hs|].
        rewrite (bind_done _ _ _ _ _ Hrun).
        exists w2. split; [reflexivity|]. split; [exact Hd2|]. by intros _.
  - unfold send, WriteFrame, bind.
    destruct (outgoing (conn w)) as [|o outs]; simpl in *; by subst.
Qed.

(** ** More on [shutdown] *)

Lemma foldl_delete_None (l : list (Z * Channel)) (m : gmap Z Channel) (k : Z) :
  m !! k = None ->
  foldl (fun m (kc : Z * Channel) => delete kc.1 m) m l !! k = None.
Proof.
  revert m. induction l as [|kc l IH]; intros m Hm; simpl; [exact Hm|].
  apply IH. rewrite lookup_delete_None. by right.
Qed.

Lemma foldl_delete_all (m : gmap Z Channel) :
  foldl (fun m (kc : Z * Channel) => delete kc.1 m) m (map_to_list m) = ∅.
Proof.
  apply map_eq. intros k. rewrite lookup_empty.
  destruct (m !! k) as [c|] eqn:Hk; [|by apply foldl_delete_None].
  apply elem_of_map_to_list in Hk.
  revert Hk. generalize (map_to_list m). intros l. revert m.
  induction l as [|kc l IH]; intros m Hin; [by apply elem_of_nil in Hin|].
  simpl. apply elem_of_cons in Hin as [<-|Hin].
  - apply foldl_delete_None. simpl. apply lookup_delete_eq.
  - by apply IH.
Qed.

Lemma channelShutdowns_app (l1 l2 : list event) :
  channelShutdowns (l1 ++ l2) = channelShutdowns l1 ++ channelShutdowns l2.
Proof. apply omap_app. Qed.

Lemma channelShutdowns_destroyEvents (err : option Error) (w : Connection) :
  channelShutdowns (destroyEvents err w)
  = map (fun kc : Z * Channel => (id kc.2, err)) (map_to_list (channels w)).
Proof.
  unfold destroyEvents. rewrite !channelShutdowns_app.
  assert (H1 : forall e l, channelShutdowns (map (fun c => EvNotify c e) l) = []).
  { intros e l. induction l; [done|exact IHl]. }
  assert (H2 : forall l, channelShutdowns (map EvCloseNotify l) = []).
  { intros l. induction l; [done|exact IHl]. }
  assert (H3 : forall l : list (Z * Channel),
    channelShutdowns (map (fun kc : Z * Channel => EvChannelShutdown (id kc.2) err) l)
    = map (fun kc : Z * Channel => (id kc.2, err)) l).
  { intros l. induction l as [|kc l IH]; [done|].
    simpl. unfold channelShutdowns in *. simpl. by rewrite IH. }
  rewrite H2, H3. destruct err; [rewrite H1|]; simpl; by rewrite app_nil_r.
Qed.

(** The first [shutdown] of a connection that has no subscribers
    returns and leaves the registry empty, [me.sends] nil and the
    destructor fired; the channels whose [shutdown] was called, each with
    the error given to [shutdown], are those that were in the registry,
    once each, in whatever order the map was ranged over; a non-nil error
    is in [me.errors]. *)
Theorem shutdown_teardown (err : option Error) (w : Connection) :
  destructor w = false ->
  errors w = [] ->
  closes w = [] ->
  exists w',
    shutdown err w = Done tt w'
    /\ channels w' = ∅
    /\ sends w' = false
    /\ destructor w' = true
    /\ errors w' = match err with Some e => [e] | None => [] end
    /\ channelShutdowns (trace (shutdown err) w)
       ≡ₚ map (fun kc : Z * Channel => (id kc.2, err)) (map_to_list (channels w)).
Proof.
  intros Hd He _.
  destruct (shutdown_first err w Hd He) as (w' & Hrun & Hlog & Hd' & He' & _ & Hs).
  exists w'. split; [exact Hrun|].
  rewrite (trace_done _ _ _ _ _ Hrun Hlog).
  change (channelShutdowns (EvShutdown err :: destroyEvents err w))
    with (channelShutdowns (destroyEvents err w)).
  rewrite channelShutdowns_destroyEvents.
  repeat split; try done.
  revert Hrun. unfold shutdown. rewrite bind_emit, bind_get. simpl.
  rewrite Hd, bind_modify.
  destruct (destroy_done err
              (set_destructor true (set_log (log w ++ [EvShutdown err]) w)) He)
    as (w2 & Hrun2 & _ & _ & _ & _ & Hch & _).
  rewrite Hrun2. intros [= <-]. rewrite Hch. apply foldl_delete_all.
Qed.

(** The error given to the first [shutdown] is what the next [call]
    returns, without touching its [res], on a connection without
    subscribers whose reader is in its loop with nothing to read: nothing
    is offered on [me.rpc] and nobody else receives from [me.errors], so
    that the receive of the error is the one case of the [select] that is
    ready.  The error is then gone from [me.errors]. *)
Theorem shutdown_error_reaches_call (e : Error) (res : list message) (w : Connection) :
  destructor w = false ->
  errors w = [] ->
  closes w = [] ->
  rpc w = None ->
  reading w = true ->
  incoming (conn w) = [] ->
  exists w1 w2,
    shutdown (Some e) w = Done tt w1
    /\ call select None res w1 = Done (Some (AmqpError e), res) w2
    /\ errors w2 = [].
Proof.
  intros Hd He _ _ _ _.
  destruct (shutdown_first (Some e) w Hd He) as (w1 & Hrun & _ & _ & He1 & _).
  exists w1, (set_errors [] w1). split; [exact Hrun|]. split; [|done].
  unfold call. rewrite bind_ret.
  assert (Hsel : select w1 = Done (FromErrors e) (set_errors [] w1)).
  { unfold select. destruct (incoming (conn w1)); simpl; unfold poll; by rewrite He1. }
  by rewrite (bind_done _ _ _ _ _ Hsel).
Qed.

(** ** More on [call] *)

(** Whatever ends the wait, a [call] that returns an error has left its
    [res] as they were. *)
Theorem call_error_keeps_res (sel : M selected) (req : option message)
    (res res' : list message) (e : error) (w w' : Connection) :
  call sel req res w = Done (Some e, res') w' -> res' = res.
Proof.
  unfold call, bind.
  destruct (match req with Some r => send (methodFrame 0 r) | None => ret None end w)
    as [[msg|] w1|w1]; [by intros [= _ <- _]| |done].
  destruct (sel w1) as [[e0|m] w2|w2]; [by intros [= _ <- _]| |done].
  destruct (assign m res); unfold ret; by intros [= <-].
Qed.

Lemma sameType_refl (m : message) : sameType m m = true.
Proof. destruct m; simpl; try done. by rewrite !Z.eqb_refl. Qed.

(** A [call] that returns nil has left as many [res] as it was given,
    each of the type it had. *)
Theorem call_success_types (sel : M selected) (req : option message)
    (res res' : list message) (w w' : Connection) :
  call sel req res w = Done (None, res') w' ->
  Forall2 (fun a b => sameType a b = true) res' res.
Proof.
  unfold call, bind.
  destruct (match req with Some r => send (methodFrame 0 r) | None => ret None end w)
    as [[msg|] w1|w1]; [done| |done].
  destruct (sel w1) as [[e0|m] w2|w2]; [done| |done].
  destruct (assign m res) as [r|] eqn:Ha; unfold ret; [|done].
  intros [= <- _].
  destruct (assign_Some _ _ _ Ha) as (_ & pre & try & post & -> & _ & Htry & ->).
  apply Forall2_app; [|constructor; [exact Htry|]];
    apply Forall2_same_length_lookup_2; try done;
    intros i x y Hx Hy; simplify_eq; apply sameType_refl.
Qed.

(** ** A reply read while a [call] waits *)

Lemma select_delivers (m : message) (rest : list (frame + string)) (w : Connection) :
  (forall k t, m <> connectionClose k t) ->
  errors w = [] ->
  rpc w = None ->
  reading w = true ->
  incoming (conn w) = inl (methodFrame 0 m) :: rest ->
  select w = Done (FromRpc m) (set_conn (mkTransport rest (outgoing (conn w))) w).
Proof.
  intros Hm He Hr Hrd Hin. unfold select. rewrite Hin.
  assert (Hturn : readerTurn (inl (methodFrame 0 m))
                    (set_conn (mkTransport rest (outgoing (conn w))) w)
                  = Done tt (set_rpc (Some m)
                       (set_conn (mkTransport rest (outgoing (conn w))) w))).
  { destruct m; try reflexivity. by destruct (Hm ReplyCode ReplyText). }
  assert (Hend : set_rpc None (set_rpc (Some m)
                   (set_conn (mkTransport rest (outgoing (conn w))) w))
                 = set_conn (mkTransport rest (outgoing (conn w))) w).
  { destruct w; simpl in *. by subst. }
  cbn [selectReading]. unfold poll at 1. rewrite He, Hr, Hrd, Hturn.
  destruct rest; cbn [selectReading]; unfold poll; simpl; by rewrite He, Hend.
Qed.

(* The connection a [call] leaves when its request is written and the
   reply is what the reader reads next. *)
Lemma call_reply (req : option message) (res : list message) (m : message)
    (rest : list (frame + string)) (w : Connection) :
  (forall k t, m <> connectionClose k t) ->
  errors w = [] ->
  rpc w = None ->
  reading w = true ->
  incoming (conn w) = inl (methodFrame 0 m) :: rest ->
  hd None (outgoing (conn w)) = None ->
  call select req res w
  = Done match assign m res with
         | Some res' => (None, res')
         | None => (Some (AmqpError ErrCommandInvalid), res)
         end
      match req with
      | Some r =>
          set_conn (mkTransport rest (tail (outgoing (conn w))))
            (set_log (log w ++ [EvWrite (methodFrame 0 r) None]) w)
      | None => set_conn (mkTransport rest (outgoing (conn w))) w
      end.
Proof.
  intros Hm He Hr Hrd Hin Hout. unfold call.
  destruct req as [r|].
  - assert (Hsend : send (methodFrame 0 r) w
                    = Done None
                        (set_log (log w ++ [EvWrite (methodFrame 0 r) None])
                           (set_conn (mkTransport (incoming (conn w))
                                        (tail (outgoing (conn w)))) w))).
    { unfold send, WriteFrame, bind.
      destruct (outgoing (conn w)) as [|o outs]; simpl in *; by subst. }
    rewrite (bind_done _ _ _ _ _ Hsend).
    erewrite (bind_done _ _ _ _ _ (select_delivers m rest _ Hm _ _ _ _)).
    + by destruct (assign m res).
  - rewrite bind_ret.
    rewrite (bind_done _ _ _ _ _ (select_delivers m rest w Hm He Hr Hrd Hin)).
    by destruct (assign m res).
  Unshelve. all: simpl; done.
Qed.

(** A [call] on a connection whose transport takes the next write and has
    next, for the reader, a method frame on channel 0 that is not
    [connection.close]: the [call] returns with that method, nil and the
    method copied over the first [res] of its type, or
    [ErrCommandInvalid].  When nothing comes after that frame, the
    [call] has written its request, if it has one, and nothing else was
    written; the frame has been read, the reader is not left waiting on
    [me.rpc]; nothing is shut down and the registry and the subscribers
    are as they were. *)
Theorem call_answered (req : option message) (res : list message) (m : message)
    (rest : list (frame + string)) (w : Connection) :
  (forall k t, m <> connectionClose k t) ->
  errors w = [] ->
  rpc w = None ->
  reading w = true ->
  incoming (conn w) = inl (methodFrame 0 m) :: rest ->
  hd None (outgoing (conn w)) = None ->
  exists w',
    call select req res w
    = Done match assign m res with
           | Some res' => (None, res')
           | None => (Some (AmqpError ErrCommandInvalid), res)
           end w'
    /\ (rest = [] ->
        writes (trace (call select req res) w)
        = match req with Some r => [methodFrame 0 r] | None => [] end
        /\ incoming (conn w') = []
        /\ rpc w' = None
        /\ errors w' = []
        /\ destructor w' = destructor w
        /\ channels w' = channels w
        /\ closes w' = closes w).
Proof.
  intros Hm He Hr Hrd Hin Hout.
  pose proof (call_reply req res m rest w Hm He Hr Hrd Hin Hout) as Hcall.
  eexists. split; [exact Hcall|]. intros ->. unfold trace. rewrite Hcall.
  destruct req as [r|]; simpl.
  - rewrite drop_app_length. done.
  - rewrite drop_all. done.
Qed.

(** ** A handshake that goes through *)

(** Brings a connection built from [connect] by field updates back to
    one record. *)
Ltac tidy :=
  unfold set_destructor, set_conn, set_rpc, set_sends, set_sequence, set_channels,
    set_closes, set_errors, set_Config, set_Major, set_Minor, set_Properties,
    set_reading, set_closing, set_log, set_SASL, set_Vhost, set_Channels,
    set_FrameSize, set_Heartbeat, connect;
  cbn [destructor conn rpc sends sequence channels closes errors
       Config_ Major Minor Properties reading closing log incoming outgoing
       SASL Vhost Channels FrameSize Heartbeat app tail hd fst snd].


(* The handshake up to the write of TUNE-OK, against a server that
   answers START and TUNE on a transport that takes every write: what is
   left of [Open] is [openVhost], on the connection given here. *)
Lemma Open_until_vhost (config : Config) (auth : Authentication)
    (maj min : Z) (props : Table) (mechs : string) (cm fm hb : Z)
    (more : list (frame + string)) :
  pickSASLMechanism (SASL config) (Split mechs Ascii.Space) = Some auth ->
  let beat := int64 (Second * pick (Heartbeat config ÷ Second) hb) in
  let channelMax := pick (Channels config) cm in
  let frameMax := pick (FrameSize config) fm in
  (emit (EvGo GoReader) >> modify (set_reading true) >> open config)
    (connect
       (mkTransport
          (inl (methodFrame 0 (connectionStart maj min props mechs))
           :: inl (methodFrame 0 (connectionTune cm fm hb))
           :: more)
          []))
  = openVhost config
      (mkConnection false (mkTransport more []) None true 0 ∅ [] []
         (mkConfig [auth] "" channelMax frameMax beat) maj min props true None
         ([EvGo GoReader;
           EvWrite protocolHeader None;
           EvWrite (methodFrame 0 (connectionStartOk (Mechanism auth) (Response auth)))
             None]
          ++ (if beat >? 0 then [EvGo (GoHeartbeater beat)] else [])
          ++ [EvWrite (methodFrame 0
                         (connectionTuneOk (uint16 channelMax) (uint32 frameMax)
                            (uint16 (beat ÷ Second))))
                None])).
Proof.
  intros Hsasl beat channelMax frameMax.
  unfold open. rewrite bind_emit, bind_modify. tidy.
  match goal with |- context [bind (send protocolHeader) ?k ?w0] =>
    assert (Hhdr : send protocolHeader w0
                   = Done None (set_log (log w0 ++ [EvWrite protocolHeader None]) w0))
      by reflexivity;
    rewrite (bind_done _ _ _ _ _ Hhdr); clear Hhdr
  end.
  tidy. unfold openStart.
  erewrite bind_done; [|apply call_reply; try reflexivity; done].
  cbn [assign sameType]. tidy.
  rewrite !bind_modify. tidy.
  cbn [start.VersionMajor start.VersionMinor start.ServerProperties start.Mechanisms].
  rewrite Hsasl, bind_modify. tidy.
  unfold openTune.
  erewrite bind_done; [|apply call_reply; try reflexivity; done].
  cbn [assign sameType]. tidy.
  rewrite !bind_modify, bind_get. tidy.
  cbn [tune.ChannelMax tune.FrameMax tune.Heartbeat].
  fold beat channelMax frameMax.
  destruct (beat >? 0); [rewrite bind_emit|rewrite bind_ret]; tidy.
  all: match goal with |- context [bind (send ?f) ?k ?w0] =>
    assert (Hok : send f w0 = Done None (set_log (log w0 ++ [EvWrite f None]) w0))
      by reflexivity;
    rewrite (bind_done _ _ _ _ _ Hok); clear Hok
  end.
  all: tidy; reflexivity.
Qed.

(* The connection that [Open] returns when the server then answers
   OPEN-OK. *)
Lemma Open_handshake (config : Config) (auth : Authentication)
    (maj min : Z) (props : Table) (mechs : string) (cm fm hb : Z)
    (more : list (frame + string)) :
  pickSASLMechanism (SASL config) (Split mechs Ascii.Space) = Some auth ->
  let beat := int64 (Second * pick (Heartbeat config ÷ Second) hb) in
  let channelMax := pick (Channels config) cm in
  let frameMax := pick (FrameSize config) fm in
  Open
    (mkTransport
       (inl (methodFrame 0 (connectionStart maj min props mechs))
        :: inl (methodFrame 0 (connectionTune cm fm hb))
        :: inl (methodFrame 0 connectionOpenOk)
        :: more)
       [])
    config
  = Some
      (Some
         (mkConnection false (mkTransport more []) None true 0 ∅ [] []
            (mkConfig [auth] (Vhost config) channelMax frameMax beat)
            maj min props true None
            ([EvGo GoReader;
              EvWrite protocolHeader None;
              EvWrite (methodFrame 0
                         (connectionStartOk (Mechanism auth) (Response auth)))
                None]
             ++ (if beat >? 0 then [EvGo (GoHeartbeater beat)] else [])
             ++ [EvWrite (methodFrame 0
                            (connectionTuneOk (uint16 channelMax) (uint32 frameMax)
                               (uint16 (beat ÷ Second))))
                   None;
                 EvWrite (methodFrame 0 (connectionOpen (Vhost config))) None])),
       None).
Proof.
  intros Hsasl beat channelMax frameMax. unfold Open.
  rewrite (Open_until_vhost config auth maj min props mechs cm fm hb _ Hsasl).
  fold beat channelMax frameMax. unfold openVhost.
  erewrite bind_done; [|apply call_reply; try reflexivity; done].
  cbn [assign sameType]. tidy. rewrite bind_modify. tidy.
  destruct (beat >? 0); reflexivity.
Qed.

(** [Open] against a server that answers START, TUNE and OPEN-OK, on a
    transport that takes every write, with a config of which the server
    names a mechanism: [Open] returns nil, and the connection holds the
    server's version and properties, the chosen mechanism, the vhost and
    the three values negotiated by [pick].  When the server sends nothing
    after OPEN-OK, the connection has written the protocol header,
    START-OK, TUNE-OK with the negotiated values and OPEN, and nothing
    else; the heartbeater was started exactly when the negotiated
    heartbeat is positive; nothing was shut down. *)
Theorem Open_negotiates (config : Config) (auth : Authentication)
    (maj min : Z) (props : Table) (mechs : string) (cm fm hb : Z)
    (more : list (frame + string)) :
  pickSASLMechanism (SASL config) (Split mechs Ascii.Space) = Some auth ->
  let beat := int64 (Second * pick (Heartbeat config ÷ Second) hb) in
  let channelMax := pick (Channels config) cm in
  let frameMax := pick (FrameSize config) fm in
  exists me,
    Open
      (mkTransport
         (inl (methodFrame 0 (connectionStart maj min props mechs))
          :: inl (methodFrame 0 (connectionTune cm fm hb))
          :: inl (methodFrame 0 connectionOpenOk)
          :: more)
         [])
      config
    = Some (Some me, None)
    /\ Config_ me = mkConfig [auth] (Vhost config) channelMax frameMax beat
    /\ Major me = maj /\ Minor me = min /\ Properties me = props
    /\ (more = [] ->
        log me
        = [EvGo GoReader;
           EvWrite protocolHeader None;
           EvWrite (methodFrame 0 (connectionStartOk (Mechanism auth) (Response auth)))
             None]
          ++ (if beat >? 0 then [EvGo (GoHeartbeater beat)] else [])
          ++ [EvWrite (methodFrame 0
                         (connectionTuneOk (uint16 channelMax) (uint32 frameMax)
                            (uint16 (beat ÷ Second))))
                None;
              EvWrite (methodFrame 0 (connectionOpen (Vhost config))) None]
        /\ incoming (conn me) = []
        /\ destructor me = false).
Proof.
  intros Hsasl beat channelMax frameMax.
  eexists. split.
  - exact (Open_handshake config auth maj min props mechs cm fm hb more Hsasl).
  - cbn [Config_ Major Minor Properties log conn incoming destructor].
    split; [done|]. split; [done|]. split; [done|]. split; [done|].
    intros ->. done.
Qed.

(** After a handshake that went through, [isCapable] answers from the
    server properties that came with START: it says yes exactly when
    they hold a table under "capabilities" in which the feature is the
    boolean true, and it leaves the connection as it is. *)
Theorem isCapable_after_Open (config : Config) (auth : Authentication)
    (maj min : Z) (props : Table) (mechs : string) (cm fm hb : Z)
    (more : list (frame + string)) (featureName : string) :
  pickSASLMechanism (SASL config) (Split mechs Ascii.Space) = Some auth ->
  exists me b,
    Open
      (mkTransport
         (inl (methodFrame 0 (connectionStart maj min props mechs))
          :: inl (methodFrame 0 (connectionTune cm fm hb))
          :: inl (methodFrame 0 connectionOpenOk)
          :: more)
         [])
      config
    = Some (Some me, None)
    /\ isCapable featureName me = Done b me
    /\ (b = true <->
        exists capabilities,
          lookupTable props "capabilities" = Some (VTable capabilities)
          /\ lookupTable capabilities featureName = Some (VBool true)).
Proof.
  intros Hsasl. eexists. eexists. split.
  - exact (Open_handshake config auth maj min props mechs cm fm hb more Hsasl).
  - split; [reflexivity|]. simpl.
    destruct (lookupTable props "capabilities") as [[| | |caps]|] eqn:Hc;
      try (split; [done|by intros (? & ? & ?)]).
    destruct (lookupTable caps featureName) as [[[]| | |]|] eqn:Hf.
    all: split; [intros Hb|intros (c & Hc' & Hf')]; simplify_eq; try done.
    all: by exists caps.
Qed.

(** C3, amended: a config whose heartbeat is under one second counts as
    an offer of 0, "no limit", and the rule of [pick] then takes what the
    server offers in TUNE: after a handshake that goes through, the
    negotiated heartbeat is the server's offer, and the heartbeater is
    started, with that interval, exactly when the server's offer is not
    0.  Heartbeats are off only when the server offers 0 as well. *)
Theorem heartbeat_below_second_follows_server (config : Config)
    (auth : Authentication) (maj min : Z) (props : Table) (mechs : string)
    (cm fm hb : Z) (more : list (frame + string)) :
  pickSASLMechanism (SASL config) (Split mechs Ascii.Space) = Some auth ->
  - Second < Heartbeat config < Second ->
  0 <= hb < 2 ^ 16 ->
  exists me,
    Open
      (mkTransport
         (inl (methodFrame 0 (connectionStart maj min props mechs))
          :: inl (methodFrame 0 (connectionTune cm fm hb))
          :: inl (methodFrame 0 connectionOpenOk)
          :: more)
         [])
      config
    = Some (Some me, None)
    /\ Heartbeat (Config_ me) = hb * Second
    /\ forall d, In (EvGo (GoHeartbeater d)) (log me) <-> d = hb * Second /\ 0 < hb.
Proof.
  intros Hsasl Hh Hhb. eexists. split.
  - exact (Open_handshake config auth maj min props mechs cm fm hb more Hsasl).
  - cbn [Config_ Heartbeat log]. rewrite (heartbeat_of_server _ _ Hh Hhb).
    split; [done|]. intros d.
    destruct (Z.gtb_spec (hb * Second) 0) as [Hpos|Hpos]; simpl.
    + split.
      * intros [H|[H|[H|[H|[H|[H|[]]]]]]]; try discriminate H.
        injection H as <-. unfold Second in *. lia.
      * intros [-> _]. tauto.
    + split.
      * intros [H|[H|[H|[H|[H|[]]]]]]; discriminate H.
      * intros [_ H]. unfold Second in *. lia.
Qed.

(** ** Closing the connection *)

(** [closeWith] first hands to the writer a [connection.close] on channel
    0 with the code of the error, cut to 16 bits, and its reason; when it
    returns, the connection has been shut down. *)
Theorem closeWith_contract (err : Error) (w : Connection) :
  (exists r rest,
     trace (closeWith err) w
     = EvWrite (methodFrame 0 (connectionClose (uint16 (Code err)) (Reason err))) r
         :: rest)
  /\ forall e w', closeWith err w = Done e w' -> destructor w' = true.
Proof.
  split; [|intros e w'; apply closeWith_fired].
  unfold trace, closeWith, call. rewrite bind_assoc.
  match goal with |- context [final (bind (send ?f) ?k w)] =>
    destruct (send_first _ f k w) as (r & rest & Hlog); [intros a; always_auto|]
  end.
  exists r, rest. by rewrite Hlog, drop_app_length.
Qed.

Lemma Close_fired (w w' : Connection) (r : option error) :
  Close w = Done r w' -> destructor w' = true.
Proof.
  unfold Close, bind.
  destruct (call _ _ _ w) as [a w1|w1]; [|done].
  destruct (shutdown None w1) as [[] w2|w2] eqn:Hs; [|done].
  intros [= _ <-]. by apply shutdown_fired in Hs.
Qed.

(** [Close] first hands to the writer a [connection.close] on channel 0
    with the success code and its fixed text; when it returns, with or
    without an error, the connection has been shut down. *)
Theorem Close_contract (w : Connection) :
  (exists r rest,
     trace Close w
     = EvWrite (methodFrame 0 (connectionClose replySuccess "kthxbai")) r :: rest)
  /\ forall e w', Close w = Done e w' -> destructor w' = true.
Proof.
  split; [|intros e w'; apply Close_fired].
  unfold trace, Close, call. rewrite bind_assoc.
  match goal with |- context [final (bind (send ?f) ?k w)] =>
    destruct (send_first _ f k w) as (r & rest & Hlog); [intros a; always_auto|]
  end.
  exists r, rest. by rewrite Hlog, drop_app_length.
Qed.

(** [Close] on a connection that has not been shut down, when the write
    succeeds, the server's [connection.close-ok] is what the reader reads
    next and nothing comes after it, and the subscribers were each
    registered once, with channels that are open: [Close] returns nil, it
    has written its [connection.close] and nothing else, the connection
    is shut down with a nil error and [me.errors] stays empty; Go gets
    through the close of every subscriber's channel, and no subscriber
    has received anything. *)
Theorem Close_acknowledged (w : Connection) (ls : listeners) :
  destructor w = false ->
  errors w = [] ->
  rpc w = None ->
  reading w = true ->
  incoming (conn w) = [inl (methodFrame 0 connectionCloseOk)] ->
  hd None (outgoing (conn w)) = None ->
  NoDup (closes w) ->
  (forall c, c ∈ closes w -> closed (ls c) = false) ->
  exists w' ls',
    Close w = Done None w'
    /\ writes (trace Close w) = [methodFrame 0 (connectionClose replySuccess "kthxbai")]
    /\ destructor w' = true
    /\ errors w' = []
    /\ deliver ls (trace Close w) = Delivered ls'
    /\ (forall c, c ∈ closes w ->
          received (ls' c) = received (ls c) /\ closed (ls' c) = true)
    /\ (forall c, c ∉ closes w -> ls' c = ls c).
Proof.
  intros Hd He Hr Hrd Hin Hout Hnd Hopen. unfold trace, Close.
  rewrite (bind_done _ _ _ _ _
             (call_reply _ [connectionCloseOk] connectionCloseOk [] w
                ltac:(done) He Hr Hrd Hin Hout)).
  cbn [assign sameType fst].
  set (w1 := set_conn _ _).
  destruct (shutdown_first None w1) as (w2 & Hrun & Hlog & Hd2 & He2 & _);
    [done..|].
  destruct (deliver_destroyEvents None w1 ls) as (ls' & Hdel & Hin' & Hout');
    [exact Hnd|intros c Hc; split; [by apply Hopen|done]|].
  rewrite (bind_done _ _ _ _ _ Hrun).
  exists w2, ls'. split; [done|]. simpl. rewrite Hlog. subst w1. simpl.
  rewrite <- app_assoc, drop_app_length.
  split; [|split; [done|split; [done|split; [|split]]]].
  - rewrite writes_app.
    assert (Hsw : writes (EvShutdown None :: destroyEvents None
              (set_conn (mkTransport [] (tail (outgoing (conn w))))
                 (set_log (log w ++ [EvWrite (methodFrame 0
                    (connectionClose replySuccess "kthxbai")) None]) w))) = []).
    { eapply (shutdown_writes None). rewrite Hrun. simpl. exact Hlog. }
    by rewrite Hsw.
  - exact Hdel.
  - intros c Hc. destruct (Hin' c Hc) as [H1 H2]. by rewrite H1, app_nil_r.
  - exact Hout'.
Qed.

(** ** The registry *)

Lemma Channel_channels (opened : option error) (w : Connection) :
  channels (final (Channel_ opened w))
  = <[uint16 (uint32 (sequence w + 1)) := newChannel (uint16 (uint32 (sequence w + 1)))]>
      (channels w).
Proof. reflexivity. Qed.

(** After [n] calls of [Channel()] on a new connection, [n] up to 65535,
    the registry holds exactly the ids 1 to [n], each with the channel
    made for it; id 0 is not among them. *)
Theorem allocate_registry (conn : Transport) (n : nat) (k : Z) :
  Z.of_nat n <= 65535 ->
  channels (allocate n (connect conn)) !! k
  = if decide (1 <= k <= Z.of_nat n) then Some (newChannel k) else None.
Proof.
  induction n as [|n IH]; intros Hn.
  - simpl. rewrite lookup_empty. case_decide; [lia|done].
  - cbn [allocate]. rewrite Channel_channels, allocate_fresh by lia.
    assert (Hkey : uint16 (uint32 (Z.of_nat n + 1)) = Z.of_nat n + 1).
    { unfold uint32, uint16.
      change (2 ^ 32) with 4294967296. change (2 ^ 16) with 65536.
      rewrite (Z.mod_small _ 4294967296) by lia.
      apply Z.mod_small. lia. }
    rewrite Hkey, lookup_insert, IH by lia.
    repeat case_decide; try lia; congruence.
Qed.

(** A channel made by [Channel()] is in the registry under its id, and a
    frame that then arrives for that id, when it is not 0, goes to the
    [recv] of that channel and to nothing else. *)
Theorem Channel_receives (opened : option error) (f : frame) (w : Connection) :
  channel f = uint16 (uint32 (sequence w + 1)) ->
  channel f <> 0 ->
  exists w1,
    Channel_ opened w = Done (newChannel (channel f), opened) w1
    /\ channels w1 !! channel f = Some (newChannel (channel f))
    /\ demux f w1 = Done tt (set_log (log w1 ++ [EvRecv (channel f) f]) w1).
Proof.
  intros Hkey Hnz. exists (final (Channel_ opened w)). split.
  - unfold Channel_, nextChannelId. rewrite Hkey. reflexivity.
  - split; [rewrite Channel_channels, Hkey; apply lookup_insert_eq|].
    unfold demux. destruct (Z.eqb_spec (channel f) 0) as [|_]; [done|].
    unfold dispatchN. rewrite bind_get, Channel_channels, Hkey, lookup_insert_eq.
    reflexivity.
Qed.

(** ** The reader after a read error *)

#[local] Instance sameTransport_preorder : PreOrder sameTransport.
Proof.
  split; unfold sameTransport; [done|].
  intros w1 w2 w3 H1 H2. by rewrite H2.
Qed.

Lemma sameTransport_emit (ev : event) : always sameTransport (emit ev).
Proof. intros w. reflexivity. Qed.

Lemma sameTransport_modify (f : Connection -> Connection) :
  (forall w, conn (f w) = conn w) -> always sameTransport (modify f).
Proof. intros Hf w. apply Hf. Qed.

#[local] Hint Resolve sameTransport_emit : conn.
#[local] Hint Extern 1 (always sameTransport (modify _)) =>
  (apply sameTransport_modify; intros ?; reflexivity) : conn.

Lemma sameTransport_shutdown (err : option Error) : always sameTransport (shutdown err).
Proof. unfold shutdown, destroy. always_auto. Qed.

(** When [ReadFrame] fails, the reader calls [shutdown] with
    [FrameError] and the message of the read error, and leaves its loop:
    it takes no further turn and the rest of the stream is never read. *)
Theorem reader_stops (msg : string) (rest : list (frame + string)) (w : Connection) :
  (destructor w = false -> errors w = []) ->
  rpc w = None ->
  reading w = true ->
  incoming (conn w) = inr msg :: rest ->
  exists w' evs,
    reader w = Done tt w'
    /\ log w' = log w ++ EvShutdown (Some (mkError FrameError msg)) :: evs
    /\ destructor w' = true
    /\ reading w' = false
    /\ incoming (conn w') = rest
    /\ reader w' = Blocked w'.
Proof.
  intros Hs Hr Hrd Hin. unfold reader at 1. rewrite Hr, Hrd, Hin.
  unfold readerTurn.
  set (w0 := set_conn _ w).
  destruct (shutdown_done (Some (mkError FrameError msg)) w0)
    as (w1 & evs & Hrun & Hlog & Hd); [exact Hs|].
  rewrite (bind_done _ _ _ _ _ Hrun), bind_modify. unfold modify.
  exists (set_closing None (set_reading false w1)), evs. split; [done|]. simpl.
  split; [exact Hlog|]. split; [exact Hd|]. split; [done|].
  assert (Hconn : conn w1 = conn w0).
  { pose proof (sameTransport_shutdown (Some (mkError FrameError msg)) w0) as H.
    by rewrite Hrun in H. }
  split; [by rewrite Hconn|].
  unfold reader. simpl. by destruct (rpc w1).
Qed.

(** ** Lifting a relation from the primitive steps to every method *)

Section Lift.
Variable R : Connection -> Connection -> Prop.
Context `{!PreOrder R}.
Hypothesis R_inner : forall w w',
  destructor w' = destructor w -> log w' = log w -> errors w' = errors w ->
  Config_ w' = Config_ w -> Major w' = Major w -> Minor w' = Minor w ->
  Properties w' = Properties w ->
  R w w'.
Hypothesis R_quiet : forall w w',
  destructor w' = destructor w -> log w' = log w -> errors w' = errors w -> R w w'.
Hypothesis R_emit : forall ev, teardown ev = false -> always R (emit ev).
Hypothesis R_write : forall f, always R (WriteFrame f).
Hypothesis R_shutdown : forall err, always R (shutdown err).
Hypothesis R_poll : forall w s w', poll w = Some (s, w') -> R w w'.

Lemma lift_modify (f : Connection -> Connection) :
  (forall w, destructor (f w) = destructor w) ->
  (forall w, log (f w) = log w) ->
  (forall w, errors (f w) = errors w) ->
  always R (modify f).
Proof. intros Hd Hl He w. apply R_quiet; simpl; auto. Qed.

Lemma lift_modify_inner (f : Connection -> Connection) :
  (forall w, destructor (f w) = destructor w) ->
  (forall w, log (f w) = log w) ->
  (forall w, errors (f w) = errors w) ->
  (forall w, Config_ (f w) = Config_ w) ->
  (forall w, Major (f w) = Major w) ->
  (forall w, Minor (f w) = Minor w) ->
  (forall w, Properties (f w) = Properties w) ->
  always R (modify f).
Proof. intros Hd Hl He Hc H1 H2 H3 w. apply R_inner; simpl; auto. Qed.

#[local] Hint Resolve R_write R_shutdown : conn.
#[local] Hint Extern 1 (always R (emit _)) => (apply R_emit; reflexivity) : conn.
#[local] Hint Extern 1 (always R (modify _)) =>
  first [ apply lift_modify_inner; intros ?; reflexivity
        | apply lift_modify; intros ?; reflexivity ] : conn.

Lemma lift_send (f : frame) : always R (send f).
Proof. unfold send. always_auto. Qed.
#[local] Hint Resolve lift_send : conn.

Lemma lift_selectOnReader (err : Error) : always R (selectOnReader err).
Proof.
  intros w. unfold selectOnReader.
  destruct (poll w) as [[s w']|] eqn:Hp; [exact (R_poll _ _ _ Hp)|by apply R_inner].
Qed.
#[local] Hint Resolve lift_selectOnReader : conn.

Lemma lift_call (sel : M selected) req res :
  always R sel -> always R (call sel req res).
Proof. intros Hsel. unfold call. always_auto. Qed.
#[local] Hint Resolve lift_call : conn.

Lemma lift_closeWith (err : Error) : always R (closeWith err).
Proof. unfold closeWith. always_auto. Qed.
#[local] Hint Resolve lift_closeWith : conn.

Lemma lift_dispatch0 (f : frame) : always R (dispatch0 f).
Proof. unfold dispatch0. always_auto. Qed.

Lemma lift_dispatchClosed (f : frame) : always R (dispatchClosed f).
Proof. unfold dispatchClosed. always_auto. Qed.
#[local] Hint Resolve lift_dispatch0 lift_dispatchClosed : conn.

Lemma lift_dispatchN (f : frame) : always R (dispatchN f).
Proof. unfold dispatchN. always_auto. Qed.
#[local] Hint Resolve lift_dispatchN : conn.

Lemma lift_demux (f : frame) : always R (demux f).
Proof. unfold demux. always_auto. Qed.
#[local] Hint Resolve lift_demux : conn.

Lemma lift_readerTurn r : always R (readerTurn r).
Proof. unfold readerTurn. always_auto. Qed.

Lemma lift_turn r rest (w : Connection) :
  R w (match readerTurn r (set_conn (mkTransport rest (outgoing (conn w))) w) with
       | Done _ w' => w'
       | Blocked w' => set_reading false w'
       end).
Proof.
  etrans; [apply (R_inner w (set_conn (mkTransport rest (outgoing (conn w))) w)); done|].
  pose proof (lift_readerTurn r (set_conn (mkTransport rest (outgoing (conn w))) w)) as H.
  destruct (readerTurn r _) as [[] w'|w']; simpl in H; [exact H|].
  etrans; [exact H|]. by apply R_inner.
Qed.

Lemma lift_readerResumes (err : Error) : always R (readerResumes err).
Proof.
  intros w. unfold readerResumes.
  destruct (poll w) as [[s w']|] eqn:Hp; [|reflexivity].
  etrans; [exact (R_poll _ _ _ Hp)|].
  match goal with |- context [?m w'] =>
    assert (Hm : always R m) by always_auto
  end.
  apply Hm.
Qed.

Lemma lift_reader : always R reader.
Proof.
  intros w. unfold reader.
  destruct (rpc w); [reflexivity|]. destruct (reading w).
  - destruct (incoming (conn w)) as [|r rest]; [reflexivity|].
    pose proof (lift_turn r rest w) as H.
    destruct (readerTurn r _); exact H.
  - destruct (closing w); [apply lift_readerResumes|reflexivity].
Qed.

Lemma lift_selectReading input : always R (selectReading input).
Proof.
  induction input as [|r rest IH]; intros w; simpl.
  - destruct (poll w) as [[s w']|] eqn:Hp; [exact (R_poll _ _ _ Hp)|].
    destruct (reading w); reflexivity.
  - destruct (poll w) as [[s w']|] eqn:Hp; [exact (R_poll _ _ _ Hp)|].
    destruct (reading w); [|reflexivity].
    pose proof (lift_turn r rest w) as H.
    destruct (readerTurn r _) as [[] w'|w']; [|exact H].
    etrans; [exact H|apply IH].
Qed.

Lemma lift_select : always R select.
Proof. intros w. apply lift_selectReading. Qed.
#[local] Hint Resolve lift_reader lift_select : conn.

Lemma lift_Close : always R Close.
Proof. unfold Close. always_auto. Qed.

Lemma lift_NotifyClose c : always R (NotifyClose c).
Proof. unfold NotifyClose. always_auto. Qed.

Lemma lift_nextChannelId : always R nextChannelId.
Proof. intros w. by apply R_quiet. Qed.
#[local] Hint Resolve lift_nextChannelId : conn.

Lemma lift_Channel opened : always R (Channel_ opened).
Proof. unfold Channel_. always_auto. Qed.

Lemma lift_openVhost config : always R (openVhost config).
Proof. unfold openVhost. always_auto. Qed.
#[local] Hint Resolve lift_openVhost : conn.

Lemma lift_openTune config auth : always R (openTune config auth).
Proof. unfold openTune. always_auto. Qed.
#[local] Hint Resolve lift_openTune : conn.

Lemma lift_openStart config : always R (openStart config).
Proof. unfold openStart. always_auto. Qed.
#[local] Hint Resolve lift_openStart : conn.

Lemma lift_open config : always R (open config).
Proof. unfold open. always_auto. Qed.
#[local] Hint Resolve lift_open : conn.

Lemma lift_perform (s : step) (w : Connection) : R w (perform s w).
Proof.
  destruct s; unfold perform.
  - revert w. change (always R
      (emit (EvGo GoReader) >> modify (set_reading true) >> open config)).
    always_auto.
  - apply lift_reader.
  - apply lift_send.
  - apply lift_Close.
  - apply R_shutdown.
  - apply lift_Channel.
  - apply lift_NotifyClose.
Qed.

Lemma lift_run (steps : list step) (w : Connection) : R w (run steps w).
Proof.
  revert w. induction steps as [|s steps IH]; intros w; simpl; [reflexivity|].
  etrans; [apply lift_perform|apply IH].
Qed.

End Lift.

(** ** After the shutdown *)

#[local] Instance settled_preorder : PreOrder settled.
Proof.
  split.
  - intros w Hd. split; [exact Hd|]. exists []. by rewrite app_nil_r.
  - intros w1 w2 w3 H1 H2 Hd.
    destruct (H1 Hd) as (Hd2 & e1 & Hl1 & Hf1).
    destruct (H2 Hd2) as (Hd3 & e2 & Hl2 & Hf2).
    split; [exact Hd3|]. exists (e1 ++ e2).
    by rewrite Hl2, Hl1, app_assoc, filter_app, Hf1, Hf2.
Qed.

Lemma settled_run (steps : list step) (w : Connection) : settled w (run steps w).
Proof.
  apply (lift_run settled).
  - intros w1 w2 Hd Hl _ _ _ _ _ Hf. split; [by rewrite Hd|].
    exists []. by rewrite app_nil_r.
  - intros w1 w2 Hd Hl _ Hf. split; [by rewrite Hd|].
    exists []. by rewrite app_nil_r.
  - intros ev Hev w1 Hd. split; [exact Hd|]. exists [ev]. split; [done|].
    rewrite filter_cons_False, filter_nil; [done|]. rewrite Hev. intros [].
  - intros f w1 Hd. unfold WriteFrame.
    destruct (outgoing (conn w1)); (split; [exact Hd|]); eexists; by split.
  - intros err w1 Hd. rewrite (shutdown_again err w1 Hd). simpl.
    split; [exact Hd|]. by exists [EvShutdown err].
  - intros w1 s w2 Hp Hd. unfold poll in Hp.
    destruct (errors w1), (rpc w1); simplify_eq; (split; [exact Hd|]);
      exists []; by rewrite app_nil_r.
Qed.

Lemma heard_teardown (c : chanref) (evs : list event) :
  filter teardown evs = [] -> heard c evs = [].
Proof.
  induction evs as [|ev evs IH]; [done|].
  rewrite filter_cons. destruct ev; simpl; try done; exact IH.
Qed.

(** Once a connection has been shut down, whatever the goroutines do
    afterwards, no subscriber is sent an error and no subscriber's
    channel is closed any more: a channel registered with [NotifyClose]
    after the shutdown never receives anything and is never closed. *)
Theorem late_subscriber_unheard (c : chanref) (steps : list step) (w : Connection) :
  destructor w = true ->
  heard c (drop (length (log w)) (log (run (DoNotifyClose c :: steps) w))) = [].
Proof.
  intros Hd.
  destruct (settled_run (DoNotifyClose c :: steps) w Hd) as (_ & evs & Hl & Hf).
  rewrite Hl, drop_app_length. by apply heard_teardown.
Qed.

(** ** No second close *)

Lemma transportCloses_teardown (evs : list event) :
  transportCloses evs = transportCloses (filter teardown evs)
  /\ sendsCloses evs = sendsCloses (filter teardown evs).
Proof.
  unfold transportCloses, sendsCloses.
  induction evs as [|ev evs [IH1 IH2]]; [done|].
  rewrite !(filter_cons _ ev). destruct ev; simpl; rewrite ?filter_cons; simpl;
    (split; [exact IH1 || by rewrite IH1|exact IH2 || by rewrite IH2]).
Qed.

Lemma closes_destroyEvents (err : option Error) (w : Connection) :
  transportCloses (destroyEvents err w) = 1%nat
  /\ sendsCloses (destroyEvents err w) = 1%nat.
Proof.
  unfold transportCloses, sendsCloses, destroyEvents.
  assert (H1 : forall (P : event -> bool) (e : Error) (l : list chanref),
             (forall c, P (EvNotify c e) = false) ->
             filter P (map (fun c => EvNotify c e) l) = []).
  { intros P e l HP. induction l as [|c l IH]; [done|].
    simpl. rewrite filter_cons_False; [exact IH|]. rewrite HP. intros []. }
  assert (H2 : forall (P : event -> bool) (l : list chanref),
             (forall c, P (EvCloseNotify c) = false) ->
             filter P (map EvCloseNotify l) = []).
  { intros P l HP. induction l as [|c l IH]; [done|].
    simpl. rewrite filter_cons_False; [exact IH|]. rewrite HP. intros []. }
  assert (H3 : forall (P : event -> bool) (l : list (Z * Channel)),
             (forall i, P (EvChannelShutdown i err) = false) ->
             filter P (map (fun kc : Z * Channel => EvChannelShutdown (id kc.2) err) l)
             = []).
  { intros P l HP. induction l as [|c l IH]; [done|].
    simpl. rewrite filter_cons_False; [exact IH|]. rewrite HP. intros []. }
  rewrite !filter_app, !H2, !H3 by done.
  destruct err; rewrite ?H1 by done; done.
Qed.

(** In every history of a connection that starts before its shutdown,
    the transport is closed at most once and [me.sends] is closed at
    most once. *)
Theorem closed_at_most_once (w0 : Connection) (steps : list step) :
  destructor w0 = false ->
  errors w0 = [] ->
  filter teardown (log w0) = [] ->
  (transportCloses (log (run steps w0)) <= 1)%nat
  /\ (sendsCloses (log (run steps w0)) <= 1)%nat.
Proof.
  intros Hd He Hl.
  destruct (transportCloses_teardown (log (run steps w0))) as [-> ->].
  destruct (once_run steps w0) as [(_ & _ & ->)|(_ & err & w1 & ->)];
    [left; auto|unfold transportCloses, sendsCloses; simpl; split; lia|].
  destruct (closes_destroyEvents err w1) as [-> ->]. split; lia.
Qed.

(** ** What [Open] returns *)

Lemma bind_Done_inv {A B} (m : M A) (k : A -> M B) (w w2 : Connection) (b : B) :
  bind m k w = Done b w2 -> exists a w1, m w = Done a w1 /\ k a w1 = Done b w2.
Proof. unfold bind. destruct (m w) as [a w1|w1]; [by exists a, w1|done]. Qed.

#[local] Instance sameSettings_preorder : PreOrder sameSettings.
Proof.
  split; unfold sameSettings; [done|].
  intros w1 w2 w3 (A1 & A2 & A3 & A4) (B1 & B2 & B3 & B4).
  by rewrite B1, B2, B3, B4.
Qed.

Lemma sameSettings_emit (ev : event) : always sameSettings (emit ev).
Proof. intros w. done. Qed.

Lemma sameSettings_modify (f : Connection -> Connection) :
  (forall w, Config_ (f w) = Config_ w) ->
  (forall w, Major (f w) = Major w) ->
  (forall w, Minor (f w) = Minor w) ->
  (forall w, Properties (f w) = Properties w) ->
  always sameSettings (modify f).
Proof. intros H1 H2 H3 H4 w. red. simpl. auto. Qed.

#[local] Hint Resolve sameSettings_emit : conn.
#[local] Hint Extern 1 (always sameSettings (modify _)) =>
  (apply sameSettings_modify; intros ?; reflexivity) : conn.

Lemma sameSettings_shutdown (err : option Error) : always sameSettings (shutdown err).
Proof. unfold shutdown, destroy. always_auto. Qed.

Lemma sameSettings_WriteFrame (f : frame) : always sameSettings (WriteFrame f).
Proof. intros w. unfold WriteFrame. by destruct (outgoing (conn w)). Qed.

Lemma sameSettings_poll (w w' : Connection) (s : selected) :
  poll w = Some (s, w') -> sameSettings w w'.
Proof. unfold poll. destruct (errors w), (rpc w); intros; by simplify_eq. Qed.

Lemma sameSettings_send (f : frame) : always sameSettings (send f).
Proof.
  apply (lift_send sameSettings); [apply sameSettings_WriteFrame|apply sameSettings_shutdown].
Qed.

Lemma sameSettings_call req res : always sameSettings (call select req res).
Proof.
  apply (lift_call sameSettings);
    [apply sameSettings_WriteFrame|apply sameSettings_shutdown|].
  apply (lift_select sameSettings).
  - intros w w' _ _ _ H1 H2 H3 H4. done.
  - intros ev _. apply sameSettings_emit.
  - apply sameSettings_WriteFrame.
  - apply sameSettings_shutdown.
  - intros w s w'. apply sameSettings_poll.
Qed.

(** ** A stream that ends during the handshake *)

Lemma select_read_error (msg : string) (rest : list (frame + string)) (w : Connection) :
  destructor w = false ->
  errors w = [] ->
  rpc w = None ->
  reading w = true ->
  incoming (conn w) = inr msg :: rest ->
  exists w',
    select w = Done (FromErrors (mkError FrameError msg)) w'
    /\ log w'
       = log w ++ EvShutdown (Some (mkError FrameError msg))
                  :: destroyEvents (Some (mkError FrameError msg)) w
    /\ destructor w' = true
    /\ reading w' = false
    /\ errors w' = []
    /\ sameSettings w w'.
Proof.
  intros Hd He Hr Hrd Hin. unfold select. rewrite Hin.
  cbn [selectReading]. unfold poll at 1. rewrite He, Hr, Hrd.
  unfold readerTurn.
  set (w0 := set_conn _ w).
  destruct (shutdown_first (Some (mkError FrameError msg)) w0)
    as (w1 & Hrun & Hlog & Hd1 & He1 & _); [done..|].
  pose proof (sameSettings_shutdown (Some (mkError FrameError msg)) w0) as Hsame.
  rewrite Hrun in Hsame.
  rewrite (bind_done _ _ _ _ _ Hrun), bind_modify. unfold modify.
  exists (set_errors [] (set_closing None (set_reading false w1))). split.
  - destruct rest; cbn [selectReading]; unfold poll; simpl; by rewrite He1.
  - simpl. done.
Qed.

(* The stream ends where OPEN-OK should come. *)
Lemma Open_vhost_drop (config : Config) (auth : Authentication)
    (maj min : Z) (props : Table) (mechs : string) (cm fm hb : Z)
    (msg : string) (more : list (frame + string)) :
  pickSASLMechanism (SASL config) (Split mechs Ascii.Space) = Some auth ->
  exists me,
    Open
      (mkTransport
         (inl (methodFrame 0 (connectionStart maj min props mechs))
          :: inl (methodFrame 0 (connectionTune cm fm hb))
          :: inr msg
          :: more)
         [])
      config
    = Some (Some me, Some (AmqpError ErrVhost))
    /\ destructor me = true
    /\ reading me = false
    /\ errors me = []
    /\ Vhost (Config_ me) = ""
    /\ last (writes (log me)) = Some (methodFrame 0 (connectionOpen (Vhost config)))
    /\ In (EvShutdown (Some (mkError FrameError msg))) (log me).
Proof.
  intros Hsasl. unfold Open.
  rewrite (Open_until_vhost config auth maj min props mechs cm fm hb _ Hsasl).
  match goal with |- context [openVhost config ?w] => set (w3 := w) end.
  unfold openVhost, call. rewrite !bind_assoc.
  assert (Hsend : send (methodFrame 0 (connectionOpen (Vhost config))) w3
                  = Done None
                      (set_log (log w3 ++ [EvWrite (methodFrame 0
                                  (connectionOpen (Vhost config))) None]) w3))
    by reflexivity.
  rewrite (bind_done _ _ _ _ _ Hsend), !bind_assoc. clear Hsend.
  match goal with |- context [bind select _ ?w] =>
    destruct (select_read_error msg more w)
      as (w5 & Hsel & Hlog & Hd & Hrd & He & Hcfg & _); [done..|];
    rewrite (bind_done _ _ _ _ _ Hsel)
  end.
  rewrite !bind_ret. cbn [fst]. exists w5.
  split; [reflexivity|]. split; [exact Hd|]. split; [exact Hrd|].
  split; [exact He|]. split; [by rewrite Hcfg|].
  rewrite Hlog. split.
  - rewrite writes_app.
    match goal with |- context [writes (EvShutdown ?e :: destroyEvents ?e ?w)] =>
      assert (Hw : writes (EvShutdown e :: destroyEvents e w) = [])
        by (unfold destroyEvents; simpl; by rewrite map_to_list_empty)
    end.
    rewrite Hw, app_nil_r. unfold set_log. cbn [log]. rewrite writes_app.
    exact (last_snoc _ _).
  - apply in_or_app. right. by left.
Qed.

(** [Open] against a server that answers START and TUNE and then drops
    the stream, where it should answer OPEN: [Open] returns [ErrVhost];
    the reader has shut the connection down with [FrameError] and the
    message of the read error and has left its loop, the vhost of the
    config has not been recorded, and the last frame written is OPEN. *)
Theorem Open_vhost_dropped (config : Config) (auth : Authentication)
    (maj min : Z) (props : Table) (mechs : string) (cm fm hb : Z)
    (msg : string) (more : list (frame + string)) :
  pickSASLMechanism (SASL config) (Split mechs Ascii.Space) = Some auth ->
  exists me,
    Open
      (mkTransport
         (inl (methodFrame 0 (connectionStart maj min props mechs))
          :: inl (methodFrame 0 (connectionTune cm fm hb))
          :: inr msg
          :: more)
         [])
      config
    = Some (Some me, Some (AmqpError ErrVhost))
    /\ destructor me = true
    /\ reading me = false
    /\ errors me = []
    /\ Vhost (Config_ me) = ""
    /\ last (writes (log me)) = Some (methodFrame 0 (connectionOpen (Vhost config)))
    /\ In (EvShutdown (Some (mkError FrameError msg))) (log me).
Proof.
  exact (Open_vhost_drop config auth maj min props mechs cm fm hb msg more).
Qed.

(** Whatever the transport delivers: when [Open] returns nil, the config
    of the connection is the one mechanism chosen among those of the
    caller's config, the caller's vhost, and for the channel limit, the
    frame size and the heartbeat what [pick] makes of the caller's value
    and a value of the server. *)
Theorem Open_nil_config (conn : Transport) (config : Config) (me : Connection) :
  Open conn config = Some (Some me, None) ->
  exists auth cm fm hb,
    In auth (SASL config)
    /\ Config_ me
       = mkConfig [auth] (Vhost config)
           (pick (Channels config) cm)
           (pick (FrameSize config) fm)
           (int64 (Second * pick (Heartbeat config ÷ Second) hb)).
Proof.
  unfold Open.
  destruct ((emit (EvGo GoReader) >> modify (set_reading true) >> open config)
              (connect conn)) as [err me'|] eqn:Hrun; [|done].
  intros [= -> ->].
  rewrite bind_emit, bind_modify in Hrun. unfold open in Hrun.
  apply bind_Done_inv in Hrun as ([msg|] & w1 & Hsend & Hrun); [done|].
  match type of Hsend with send ?f ?w = _ =>
    pose proof (sameSettings_send f w) as S1
  end.
  rewrite Hsend in S1.
  destruct S1 as (C1 & _). simpl in C1.
  unfold openStart in Hrun.
  apply bind_Done_inv in Hrun as ([e1 res1] & w2 & Hcall1 & Hrun).
  pose proof (sameSettings_call None [connectionStart 0 0 TNil ""] w1) as S2.
  rewrite Hcall1 in S2. destruct S2 as (C2 & _). simpl in C2.
  cbn [fst snd] in Hrun. destruct e1 as [e1|]; [done|].
  rewrite !bind_modify in Hrun.
  destruct (pickSASLMechanism _ _) as [auth|] eqn:Hsasl; [|done].
  rewrite bind_modify in Hrun. unfold openTune in Hrun.
  apply bind_Done_inv in Hrun as ([e2 res2] & w3 & Hcall2 & Hrun).
  match type of Hcall2 with call _ ?req ?res ?w = _ =>
    pose proof (sameSettings_call req res w) as S3
  end.
  rewrite Hcall2 in S3. destruct S3 as (C3 & _). simpl in C3.
  cbn [fst snd] in Hrun. destruct e2 as [e2|]; [done|].
  rewrite !bind_modify, bind_get in Hrun.
  apply bind_Done_inv in Hrun as ([] & w4 & Hgo & Hrun).
  assert (C4 : sameSettings
                 (set_Config (set_Heartbeat
                    (int64 (Second * pick (Heartbeat config ÷ Second)
                       (tune.Heartbeat (hd (connectionTune 0 0 0) res2))))
                    (set_FrameSize (pick (FrameSize config)
                       (tune.FrameMax (hd (connectionTune 0 0 0) res2)))
                       (set_Channels (pick (Channels config)
                          (tune.ChannelMax (hd (connectionTune 0 0 0) res2)))
                          (Config_ w3)))) w3) w4).
  { revert Hgo. simpl. destruct (_ >? 0); intros [= <-]; done. }
  destruct C4 as (C4 & _).
  apply bind_Done_inv in Hrun as ([msg|] & w5 & Hsend2 & Hrun); [done|].
  match type of Hsend2 with send ?f ?w = _ =>
    pose proof (sameSettings_send f w) as S5
  end.
  rewrite Hsend2 in S5. destruct S5 as (C5 & _). simpl in C5.
  unfold openVhost in Hrun.
  apply bind_Done_inv in Hrun as ([e3 res3] & w6 & Hcall3 & Hrun).
  match type of Hcall3 with call _ ?req ?res ?w = _ =>
    pose proof (sameSettings_call req res w) as S6
  end.
  rewrite Hcall3 in S6. destruct S6 as (C6 & _). simpl in C6.
  cbn [fst] in Hrun. destruct e3 as [e3|]; [done|].
  rewrite bind_modify in Hrun. injection Hrun as <-.
  exists auth, (tune.ChannelMax (hd (connectionTune 0 0 0) res2)),
    (tune.FrameMax (hd (connectionTune 0 0 0) res2)),
    (tune.Heartbeat (hd (connectionTune 0 0 0) res2)).
  split.
  - unfold pickSASLMechanism in Hsasl. by apply find_some in Hsasl as [? _].
  - simpl. rewrite C6, C5, C4. simpl. rewrite C3. simpl. rewrite C2, C1.
    reflexivity.
Qed.

(* The header write fails, in the schedule of [Open]: the reader has
   taken no turn before the write. *)
Lemma Open_header_error (ins : list (frame + string)) (msg : string)
    (outs : list (option string)) (config : Config) :
  exists me,
    Open (mkTransport ins (Some msg :: outs)) config
    = Some (Some me, Some (IOError msg))
    /\ log me
       = [EvGo GoReader;
          EvWrite protocolHeader (Some msg);
          EvShutdown (Some (mkError FrameError msg));
          EvErrors (mkError FrameError msg);
          EvCloseSends;
          EvCloseConn]
    /\ incoming (conn me) = ins
    /\ destructor me = true
    /\ errors me = [mkError FrameError msg].
Proof.
  unfold Open, open, send. rewrite bind_emit, bind_modify, !bind_assoc.
  match goal with |- context [bind (WriteFrame protocolHeader) ?k ?w0] =>
    assert (Hw : WriteFrame protocolHeader w0
                 = Done (Some msg)
                     (set_log (log w0 ++ [EvWrite protocolHeader (Some msg)])
                        (set_conn (mkTransport ins outs) w0)))
      by reflexivity
  end.
  rewrite (bind_done _ _ _ _ _ Hw), !bind_assoc. clear Hw.
  match goal with |- context [bind (shutdown ?e) ?k ?w1] =>
    destruct (shutdown_first e w1) as (w2 & Hrun & Hlog & Hd & He & _); [done..|];
    pose proof (sameTransport_shutdown e w1) as Hc; rewrite Hrun in Hc;
    unfold sameTransport in Hc; simpl in Hc;
    rewrite (bind_done _ _ _ _ _ Hrun)
  end.
  rewrite !bind_ret. exists w2. split; [reflexivity|].
  split; [|split; [by rewrite Hc|done]].
  rewrite Hlog. unfold destroyEvents. simpl. by rewrite map_to_list_empty.
Qed.

(** [Open] on a transport that has nothing to read and fails the first
    write returns the error of that write; it has written nothing else,
    and the connection has been shut down with [FrameError] and the
    message of the write error, which stays in [me.errors].  (With
    nothing to read the reader, started before the write, waits in
    [ReadFrame] whatever the schedule.) *)
Theorem Open_header_fails (msg : string) (outs : list (option string))
    (config : Config) :
  exists me,
    Open (mkTransport [] (Some msg :: outs)) config
    = Some (Some me, Some (IOError msg))
    /\ log me
       = [EvGo GoReader;
          EvWrite protocolHeader (Some msg);
          EvShutdown (Some (mkError FrameError msg));
          EvErrors (mkError FrameError msg);
          EvCloseSends;
          EvCloseConn]
    /\ destructor me = true
    /\ errors me = [mkError FrameError msg].
Proof.
  destruct (Open_header_error [] msg outs config) as (me & H1 & H2 & _ & H3 & H4).
  by exists me.
Qed.

(** When the first [call] of the handshake, the one that waits for START,
    returns an error, [Open] returns that very error, with the connection
    as the [call] left it. *)
Theorem Open_start_error (conn : Transport) (config : Config)
    (w0 w1 : Connection) (res : list message) (e : error) :
  (emit (EvGo GoReader) >> modify (set_reading true) >> send protocolHeader)
    (connect conn) = Done None w0 ->
  call select None [connectionStart 0 0 TNil ""] w0 = Done (Some e, res) w1 ->
  Open conn config = Some (Some w1, Some e).
Proof.
  intros Hhdr Hstart. unfold Open, open.
  rewrite <- !bind_assoc. rewrite (bind_done _ _ _ _ _ Hhdr).
  unfold openStart. by rewrite (bind_done _ _ _ _ _ Hstart).
Qed.


(** ** [Open] and the handshake that fails *)

(* The handshake up to the write of START-OK, against a server that
   answers START with a mechanism of the config. *)
Lemma Open_until_tune (config : Config) (auth : Authentication)
    (maj min : Z) (props : Table) (mechs : string)
    (more : list (frame + string)) :
  pickSASLMechanism (SASL config) (Split mechs Ascii.Space) = Some auth ->
  (emit (EvGo GoReader) >> modify (set_reading true) >> open config)
    (connect
       (mkTransport
          (inl (methodFrame 0 (connectionStart maj min props mechs)) :: more)
          []))
  = openTune config auth
      (mkConnection false (mkTransport more []) None true 0 ∅ [] []
         (mkConfig [auth] "" 0 0 0) maj min props true None
         [EvGo GoReader; EvWrite protocolHeader None]).
Proof.
  intros Hsasl.
  unfold open. rewrite bind_emit, bind_modify. tidy.
  match goal with |- context [bind (send protocolHeader) ?k ?w0] =>
    assert (Hhdr : send protocolHeader w0
                   = Done None (set_log (log w0 ++ [EvWrite protocolHeader None]) w0))
      by reflexivity;
    rewrite (bind_done _ _ _ _ _ Hhdr); clear Hhdr
  end.
  tidy. unfold openStart.
  erewrite bind_done; [|apply call_reply; try reflexivity; done].
  cbn [assign sameType]. tidy.
  rewrite !bind_modify. tidy.
  cbn [start.VersionMajor start.VersionMinor start.ServerProperties start.Mechanisms].
  rewrite Hsasl, bind_modify. tidy. reflexivity.
Qed.

(* START names no mechanism of the config. *)
Lemma Open_sasl_none (config : Config)
    (maj min : Z) (props : Table) (mechs : string)
    (more : list (frame + string)) :
  pickSASLMechanism (SASL config) (Split mechs Ascii.Space) = None ->
  Open
    (mkTransport
       (inl (methodFrame 0 (connectionStart maj min props mechs)) :: more) [])
    config
  = Some
      (Some
         (mkConnection false (mkTransport more []) None true 0 ∅ [] []
            (mkConfig [] "" 0 0 0) maj min props true None
            [EvGo GoReader; EvWrite protocolHeader None]),
       Some (AmqpError ErrSASL)).
Proof.
  intros Hsasl.
  unfold Open, open. rewrite bind_emit, bind_modify. tidy.
  match goal with |- context [bind (send protocolHeader) ?k ?w0] =>
    assert (Hhdr : send protocolHeader w0
                   = Done None (set_log (log w0 ++ [EvWrite protocolHeader None]) w0))
      by reflexivity;
    rewrite (bind_done _ _ _ _ _ Hhdr); clear Hhdr
  end.
  tidy. unfold openStart.
  erewrite bind_done; [|apply call_reply; try reflexivity; done].
  cbn [assign sameType]. tidy.
  rewrite !bind_modify. tidy.
  cbn [start.VersionMajor start.VersionMinor start.ServerProperties start.Mechanisms].
  rewrite Hsasl. reflexivity.
Qed.

(* The stream ends where TUNE should come. *)
Lemma Open_credentials_drop (config : Config) (auth : Authentication)
    (maj min : Z) (props : Table) (mechs : string)
    (msg : string) (more : list (frame + string)) :
  pickSASLMechanism (SASL config) (Split mechs Ascii.Space) = Some auth ->
  exists me,
    Open
      (mkTransport
         (inl (methodFrame 0 (connectionStart maj min props mechs))
          :: inr msg :: more)
         [])
      config
    = Some (Some me, Some (AmqpError ErrCredentials))
    /\ destructor me = true.
Proof.
  intros Hsasl. unfold Open.
  rewrite (Open_until_tune config auth maj min props mechs _ Hsasl).
  match goal with |- context [openTune config auth ?w] => set (w2 := w) end.
  unfold openTune, call. rewrite !bind_assoc.
  match goal with |- context [bind (send ?f) _ w2] =>
    assert (Hsend : send f w2 = Done None (set_log (log w2 ++ [EvWrite f None]) w2))
      by reflexivity;
    rewrite (bind_done _ _ _ _ _ Hsend), !bind_assoc; clear Hsend
  end.
  match goal with |- context [bind select _ ?w] =>
    destruct (select_read_error msg more w)
      as (w3 & Hsel & _ & Hd & _); [done..|];
    rewrite (bind_done _ _ _ _ _ Hsel)
  end.
  rewrite !bind_ret. cbn [fst]. by exists w3.
Qed.

(** C10, amended: whenever [Open] returns, it returns a connection that
    is not nil, whose reader was started before anything else; and it
    does return, with the connection and the error, when the handshake
    fails: on a failed write of the protocol header, when START names no
    mechanism of the config ([ErrSASL]), when the stream ends where TUNE
    should come ([ErrCredentials]) and when it ends where OPEN-OK should
    come ([ErrVhost]). *)
Theorem Open_returns_connection :
  (forall conn config me err,
     Open conn config = Some (me, err) ->
     exists w rest, me = Some w /\ log w = EvGo GoReader :: rest)
  /\ (forall msg outs config,
        exists w,
          Open (mkTransport [] (Some msg :: outs)) config
          = Some (Some w, Some (IOError msg)))
  /\ (forall config maj min props mechs more,
        pickSASLMechanism (SASL config) (Split mechs Ascii.Space) = None ->
        exists w,
          Open
            (mkTransport
               (inl (methodFrame 0 (connectionStart maj min props mechs)) :: more)
               [])
            config
          = Some (Some w, Some (AmqpError ErrSASL)))
  /\ (forall config auth maj min props mechs msg more,
        pickSASLMechanism (SASL config) (Split mechs Ascii.Space) = Some auth ->
        exists w,
          Open
            (mkTransport
               (inl (methodFrame 0 (connectionStart maj min props mechs))
                :: inr msg :: more)
               [])
            config
          = Some (Some w, Some (AmqpError ErrCredentials)))
  /\ (forall config auth maj min props mechs cm fm hb msg more,
        pickSASLMechanism (SASL config) (Split mechs Ascii.Space) = Some auth ->
        exists w,
          Open
            (mkTransport
               (inl (methodFrame 0 (connectionStart maj min props mechs))
                :: inl (methodFrame 0 (connectionTune cm fm hb))
                :: inr msg :: more)
               [])
            config
          = Some (Some w, Some (AmqpError ErrVhost))).
Proof.
  split; [exact Open_nonnil|]. split; [|split; [|split]].
  - intros msg outs config.
    destruct (Open_header_error [] msg outs config) as (me & H & _). by exists me.
  - intros config maj min props mechs more Hsasl. eexists.
    exact (Open_sasl_none config maj min props mechs more Hsasl).
  - intros config auth maj min props mechs msg more Hsasl.
    destruct (Open_credentials_drop config auth maj min props mechs msg more Hsasl)
      as (me & H & _).
    by exists me.
  - intros config auth maj min props mechs cm fm hb msg more Hsasl.
    destruct (Open_vhost_drop config auth maj min props mechs cm fm hb msg more Hsasl)
      as (me & H & _).
    by exists me.
Qed.

(** ** The heartbeater *)

Lemma trace_bind {A B} (m : M A) (k : A -> M B) (w w1 : Connection) (a : A) :
  always extends m ->
  (forall a, always extends (k a)) ->
  m w = Done a w1 ->
  trace (bind m k) w = trace m w ++ trace (k a) w1.
Proof.
  intros Hm Hk Hrun.
  pose proof (Hm w) as [e1 H1]. pose proof (Hk a w1) as [e2 H2].
  rewrite Hrun in H1. simpl in H1.
  unfold trace. rewrite (bind_done _ _ _ _ _ Hrun), Hrun. simpl.
  rewrite H2, (drop_app_length (log w1)), H1, <- app_assoc.
  by rewrite !drop_app_length.
Qed.

Lemma trace_self {A} (o : Connection -> outcome A) (w : Connection) :
  final (o w) = w -> trace o w = [].
Proof. intros H. unfold trace. rewrite H. apply drop_all. Qed.

Lemma extends_heartbeating (interval last : Z) (wakeups : list wakeup) :
  always extends (heartbeating interval last wakeups).
Proof.
  revert last. induction wakeups as [|k rest IH]; intros last; simpl.
  - always_auto.
  - destruct k; [|apply IH|always_auto].
    destruct (_ >? _); [|apply IH]. always_auto; try apply IH.
Qed.

Lemma send_writes (f : frame) (w : Connection) : writes (trace (send f) w) = [f].
Proof.
  unfold trace, send.
  destruct (WriteFrame_done f w) as (r & w1 & Hw & Hlog1 & _).
  rewrite (bind_done _ _ _ _ _ Hw). destruct r as [msg|]; simpl.
  - pose proof (extends_shutdown (Some (mkError FrameError msg)) w1) as [evs Hevs].
    rewrite final_bind_pure by done.
    rewrite Hevs, Hlog1, <- app_assoc, drop_app_length, writes_app.
    by rewrite (shutdown_writes _ _ _ Hevs).
  - by rewrite Hlog1, drop_app_length.
Qed.


Lemma heartbeat_trace (interval last : Z) (rest : list wakeup)
    (w w1 : Connection) (a : option string) :
  send (heartbeatFrame 0) w = Done a w1 ->
  trace (err <- send (heartbeatFrame 0) ;;
         match err with
         | Some _ => ret tt
         | None => heartbeating interval last rest
         end) w
  = trace (send (heartbeatFrame 0)) w
    ++ match a with
       | Some _ => []
       | None => trace (heartbeating interval last rest) w1
       end.
Proof.
  intros Hsend.
  rewrite (trace_bind (send (heartbeatFrame 0))
             (fun err : option string =>
                match err with
                | Some _ => ret tt
                | None => heartbeating interval last rest
                end) w w1 a); [|apply extends_send| |exact Hsend].
  - destruct a; [|done]. f_equal. by apply trace_self.
  - intros [msg|]; [always_auto|apply extends_heartbeating].
Qed.

(** The heartbeater hands to the writer nothing but heartbeat frames on
    channel 0, and at most one for each tick it receives. *)
Theorem heartbeater_writes (interval now : Z) (wakeups : list wakeup) (w : Connection) :
  exists n : nat,
    (n <= length (filter isTick wakeups))%nat
    /\ writes (trace (heartbeater interval now wakeups) w)
       = replicate n (heartbeatFrame 0).
Proof.
  unfold heartbeater. revert now w.
  induction wakeups as [|k rest IH]; intros last w.
  - exists O. split; [simpl; lia|]. cbn [heartbeating].
    by rewrite (trace_self (@block unit) w).
  - destruct k as [t|t|]; cbn [heartbeating].
    + rewrite filter_cons_True by done. simpl length.
      destruct (_ >? _).
      * destruct (send (heartbeatFrame 0) w) as [[msg|] w1|w1] eqn:Hsend.
        -- exists 1%nat. split; [lia|].
           by rewrite (heartbeat_trace _ _ _ _ _ _ Hsend), writes_app, send_writes.
        -- destruct (IH last w1) as (n & Hn & Hw).
           exists (S n). split; [lia|].
           by rewrite (heartbeat_trace _ _ _ _ _ _ Hsend), writes_app, send_writes, Hw.
        -- exists 1%nat. split; [lia|].
           pose proof (send_writes (heartbeatFrame 0) w) as Hw.
           unfold trace in *. rewrite (bind_blocked _ _ _ _ Hsend).
           by rewrite Hsend in Hw.
      * destruct (IH last w) as (n & Hn & Hw). exists n. split; [lia|done].
    + rewrite filter_cons_False by (intros []).
      destruct (IH t w) as (n & Hn & Hw). by exists n.
    + exists O. split; [lia|]. by rewrite (trace_self (ret tt) w).
Qed.

(** While frames are sent often enough, so that no tick comes later than
    [interval - 1s] after the latest of them, the heartbeater does
    nothing to the connection. *)
Theorem heartbeater_idle (interval now : Z) (wakeups : list wakeup) (w : Connection) :
  inTime interval now wakeups ->
  final (heartbeater interval now wakeups w) = w.
Proof.
  unfold heartbeater. revert now.
  induction wakeups as [|k rest IH]; intros last Hin; [done|].
  destruct k as [t|t|]; cbn [heartbeating inTime] in *; [|by apply IH|done].
  destruct Hin as [Hle Hin].
  destruct (Z.gtb_spec (Sub t last) (int64 (interval - Second))); [lia|].
  by apply IH.
Qed.


(** ** The reader goroutine and [me.rpc] *)

#[local] Instance sameRpc_preorder : PreOrder sameRpc.
Proof.
  split; unfold sameRpc; [done|].
  intros w1 w2 w3 H1 H2. by rewrite H2.
Qed.

Lemma sameRpc_emit (ev : event) : always sameRpc (emit ev).
Proof. intros w. reflexivity. Qed.

Lemma sameRpc_modify (f : Connection -> Connection) :
  (forall w, rpc (f w) = rpc w) -> always sameRpc (modify f).
Proof. intros Hf w. apply Hf. Qed.

#[local] Hint Resolve sameRpc_emit : conn.
#[local] Hint Extern 1 (always sameRpc (modify _)) =>
  (apply sameRpc_modify; intros ?; reflexivity) : conn.

Lemma sameRpc_shutdown (err : option Error) : always sameRpc (shutdown err).
Proof. unfold shutdown, destroy. always_auto. Qed.

Lemma sameRpc_WriteFrame (f : frame) : always sameRpc (WriteFrame f).
Proof. intros w. unfold WriteFrame. by destruct (outgoing (conn w)). Qed.

Lemma sameRpc_send (f : frame) : always sameRpc (send f).
Proof.
  apply (lift_send sameRpc); [apply sameRpc_WriteFrame|apply sameRpc_shutdown].
Qed.

(** [closeWith] runs on the reader goroutine, which is then not offering
    a message on [me.rpc], and only that goroutine ever sends on
    [me.rpc]: the [connection.close-ok] that [closeWith] asks for cannot
    reach it.  It never returns nil; and when its write succeeds while
    [me.errors] is empty, it does not return: it has written its
    [connection.close] and waits, and its deferred [shutdown] has not
    run. *)
Theorem closeWith_on_reader (err : Error) (w : Connection) :
  rpc w = None ->
  (forall e w', closeWith err w = Done e w' -> e <> None)
  /\ (errors w = [] ->
      hd None (outgoing (conn w)) = None ->
      exists w',
        closeWith err w = Blocked w'
        /\ trace (closeWith err) w
           = [EvWrite (methodFrame 0
                         (connectionClose (uint16 (Code err)) (Reason err))) None]
        /\ destructor w' = destructor w).
Proof.
  intros Hr. split.
  - intros e w'. unfold closeWith, call. rewrite !bind_assoc.
    intros H. apply bind_Done_inv in H as ([msg|] & w1 & Hsend & H).
    + rewrite bind_ret in H. cbn [fst] in H.
      apply bind_Done_inv in H as ([] & w2 & _ & H).
      unfold ret in H. by simplify_eq.
    + pose proof (sameRpc_send
                    (methodFrame 0 (connectionClose (uint16 (Code err)) (Reason err)))
                    w) as Hsame.
      rewrite Hsend in Hsame. unfold sameRpc in Hsame. simpl in Hsame.
      rewrite bind_assoc in H.
      apply bind_Done_inv in H as (s & w2 & Hsel & H).
      unfold selectOnReader, poll in Hsel. rewrite Hsame, Hr in Hsel.
      destruct (errors w1) as [|e0 es]; [done|]. simplify_eq.
      rewrite bind_ret in H. cbn [fst] in H.
      apply bind_Done_inv in H as ([] & w3 & _ & H).
      unfold ret in H. by simplify_eq.
  - intros He Hout. unfold trace, closeWith, call. rewrite !bind_assoc.
    set (f := methodFrame 0 (connectionClose (uint16 (Code err)) (Reason err))).
    assert (Hsend : send f w
                    = Done None
                        (set_log (log w ++ [EvWrite f None])
                           (set_conn (mkTransport (incoming (conn w))
                                        (tail (outgoing (conn w)))) w))).
    { unfold send, WriteFrame, bind.
      destruct (outgoing (conn w)) as [|o outs]; simpl in *; by subst. }
    rewrite (bind_done _ _ _ _ _ Hsend), !bind_assoc.
    match goal with |- context [bind (selectOnReader err) ?k ?w1] =>
      assert (Hsel : selectOnReader err w1 = Blocked (set_closing (Some err) w1))
        by (unfold selectOnReader, poll; simpl; by rewrite He, Hr);
      rewrite (bind_blocked _ _ _ _ Hsel)
    end.
    eexists. split; [reflexivity|]. simpl.
    by rewrite drop_app_length.
Qed.

(** A method on channel 0 that is not [connection.close], read while no
    [call] waits, is not lost: the reader holds it on [me.rpc] and takes
    no further turn, and the next [call] returns with it, as it would
    have.  When nothing comes after that frame, nothing more has been
    read or done when the [call] returns, and the reader is not left
    waiting on [me.rpc]. *)
Theorem reader_offers (m : message) (res : list message)
    (rest : list (frame + string)) (w : Connection) :
  (forall k t, m <> connectionClose k t) ->
  errors w = [] ->
  rpc w = None ->
  reading w = true ->
  incoming (conn w) = inl (methodFrame 0 m) :: rest ->
  exists w1 w2,
    reader w = Done tt w1
    /\ rpc w1 = Some m
    /\ reader w1 = Blocked w1
    /\ call select None res w1
       = Done match assign m res with
              | Some res' => (None, res')
              | None => (Some (AmqpError ErrCommandInvalid), res)
              end w2
    /\ (rest = [] ->
        rpc w2 = None
        /\ incoming (conn w2) = []
        /\ log w2 = log w).
Proof.
  intros Hm He Hr Hrd Hin.
  set (w0 := set_conn (mkTransport rest (outgoing (conn w))) w).
  assert (Hturn : readerTurn (inl (methodFrame 0 m)) w0
                  = Done tt (set_rpc (Some m) w0)).
  { destruct m; try reflexivity. by destruct (Hm ReplyCode ReplyText). }
  exists (set_rpc (Some m) w0), (set_rpc None (set_rpc (Some m) w0)).
  split; [unfold reader; rewrite Hr, Hrd, Hin; fold w0; by rewrite Hturn|].
  split; [done|]. split; [done|]. split; [|by intros ->].
  unfold call. rewrite bind_ret.
  assert (Hsel : select (set_rpc (Some m) w0)
                 = Done (FromRpc m) (set_rpc None (set_rpc (Some m) w0))).
  { unfold select. simpl incoming.
    destruct rest; cbn [selectReading]; unfold poll; simpl; by rewrite He. }
  rewrite (bind_done _ _ _ _ _ Hsel). by destruct (assign m res).
Qed.

(** A content frame on channel 0 is answered with [closeWith]: the first
    thing [demux] does is to hand to the writer a [connection.close] with
    the code and the reason of [ErrUnexpectedFrame], and when [demux]
    returns the connection has been shut down. *)
Theorem demux_unexpected_frame (f : frame) (payload : list Z) (w : Connection) :
  f = headerFrame 0 payload \/ f = bodyFrame 0 payload ->
  (exists r rest,
     trace (demux f) w
     = EvWrite (methodFrame 0
                  (connectionClose (uint16 (Code ErrUnexpectedFrame))
                     (Reason ErrUnexpectedFrame))) r
         :: rest)
  /\ forall w', demux f w = Done tt w' -> destructor w' = true.
Proof.
  intros Hf.
  assert (Hd : demux f = (closeWith ErrUnexpectedFrame >> ret tt))
    by (destruct Hf as [->| ->]; reflexivity).
  rewrite Hd. split.
  - unfold trace, closeWith, call. rewrite !bind_assoc.
    match goal with |- context [final (bind (send ?f) ?k w)] =>
      destruct (send_first _ f k w) as (r & rest & Hlog); [intros a; always_auto|]
    end.
    exists r, rest. by rewrite Hlog, drop_app_length.
  - intros w' H. apply bind_Done_inv in H as (e & w1 & Hc & H).
    unfold ret in H. simplify_eq. by apply closeWith_fired in Hc.
Qed.

End Properties.

(* ================================================================== *)
(** * Worked runs *)

#[local] Existing Instance amqp091.

(** The handshake against a server that offers no mechanism of the
    client's ends with [ErrSASL], on a connection that is there. *)
Example Open_no_shared_mechanism :
  exists me,
    Open
      (mkTransport [inl (methodFrame 0 (connectionStart 0 9 TNil "EXTERNAL"))] [])
      (mkConfig [plainAuth] "/" 0 0 0)
    = Some (Some me, Some (AmqpError ErrSASL)).
Proof. eexists. vm_compute. reflexivity. Qed.

(** The handshake against a server that drops after OPEN ends with
    [ErrVhost]. *)
Example Open_vhost_refused :
  exists me,
    Open
      (mkTransport
         [inl (methodFrame 0 (connectionStart 0 9 TNil "PLAIN"));
          inl (methodFrame 0 (connectionTune 0 0 0));
          inr "EOF"] [])
      (mkConfig [plainAuth] "/" 0 0 0)
    = Some (Some me, Some (AmqpError ErrVhost)).
Proof. eexists. vm_compute. reflexivity. Qed.

(** The handshake on a transport that fails the first write ends with
    the error of the write. *)
Example Open_write_fails :
  exists me,
    Open (mkTransport [] [Some "broken pipe"]) (mkConfig [plainAuth] "/" 0 0 0)
    = Some (Some me, Some (IOError "broken pipe")).
Proof. eexists. vm_compute. reflexivity. Qed.

(** The handshake against a server that never answers does not return:
    [Open] waits for START for ever, on a transport that has no read
    deadline. *)
Lemma Open_returns_connection_counterexample :
  Open silentServer (mkConfig [plainAuth] "/" 0 0 0) = None.
Proof. vm_compute. reflexivity. Qed.

(** A config with half a second of heartbeat against a server that
    offers 10 seconds: the handshake goes through, the negotiated
    heartbeat is 10 seconds, not zero, and the heartbeater is started. *)
Lemma heartbeat_below_second_counterexample :
  Heartbeat (mkConfig [plainAuth] "/" 0 0 (Second / 2)) < Second
  /\ exists me,
       Open (tuningServer 10) (mkConfig [plainAuth] "/" 0 0 (Second / 2))
       = Some (Some me, None)
       /\ Heartbeat (Config_ me) = 10 * Second
       /\ Heartbeat (Config_ me) <> 0
       /\ In (EvGo (GoHeartbeater (10 * Second))) (log me).
Proof.
  split; [reflexivity|].
  eexists. split; [vm_compute; reflexivity|].
  split; [reflexivity|]. split; [discriminate|]. simpl. tauto.
Qed.

Lemma heartbeat_below_second_follows_server_witness :
  pickSASLMechanism [plainAuth] (Split "AMQPLAIN PLAIN" Ascii.Space) = Some plainAuth
  /\ - Second < Second / 2 < Second
  /\ 0 <= 10 < 2 ^ 16
  /\ exists me,
       Open (tuningServer 10) (mkConfig [plainAuth] "/" 0 0 (Second / 2))
       = Some (Some me, None)
       /\ Heartbeat (Config_ me) = 10 * Second
       /\ In (EvGo (GoHeartbeater (10 * Second))) (log me).
Proof.
  assert (H1 : - Second < Second / 2 < Second) by (split; reflexivity).
  assert (H2 : 0 <= 10 < 2 ^ 16) by (split; [discriminate|reflexivity]).
  split; [reflexivity|]. split; [exact H1|]. split; [exact H2|].
  destruct (heartbeat_below_second_follows_server
              (mkConfig [plainAuth] "/" 0 0 (Second / 2)) plainAuth
              0 9 TNil "AMQPLAIN PLAIN" 2047 131072 10 [] eq_refl H1 H2)
    as (me & Hopen & Hbeat & Hgo).
  exists me. split; [exact Hopen|]. split; [exact Hbeat|].
  apply Hgo. split; [reflexivity|reflexivity].
Defined.

(** A method for a channel that is not open, on a live connection: the
    reader writes [connection.close] and waits in [closeWith]; a
    heartbeat whose write fails shuts the connection down; the reader
    then takes the error and leaves [closeWith] through its deferred
    [shutdown], which does nothing any more. *)
Example stray_method_history :
  let w :=
    run [DoReader; DoSend (heartbeatFrame 0); DoReader]
      (set_reading true
         (connect (mkTransport [inl (methodFrame 5 (method 60 40))]
                     [None; Some "broken pipe"]))) in
  log w
  = [EvWrite (methodFrame 0 (connectionClose 504 "channel/connection is not open"))
       None;
     EvWrite (heartbeatFrame 0) (Some "broken pipe");
     EvShutdown (Some (mkError 501 "broken pipe"));
     EvErrors (mkError 501 "broken pipe");
     EvCloseSends;
     EvCloseConn;
     EvShutdown (Some (mkError 504 "channel/connection is not open"))]
  /\ reading w = true
  /\ closing w = None
  /\ errors w = [].
Proof. vm_compute. auto. Qed.

(** Tuning, 0 meaning no limit. *)
Example pick_tuning :
  pick 0 100 = 100 /\ pick 50 0 = 50 /\ pick 50 100 = 50 /\ pick 100 50 = 50.
Proof. repeat split. Qed.

(* ================================================================== *)
(** * The theorems at work *)

Lemma shutdown_runs_once_witness :
  destructor (connect closingServer) = false
  /\ errors (connect closingServer) = []
  /\ filter teardown (log (connect closingServer)) = []
  /\ atMostOnce
       (run
          [DoNotifyClose 1%nat; DoOpen (mkConfig [plainAuth] "/" 0 0 0);
           DoSend (heartbeatFrame 0); DoReader; DoClose]
          (connect closingServer)).
Proof.
  split; [reflexivity|]. split; [reflexivity|]. split; [reflexivity|].
  exact (proj1 (shutdown_runs_once (connect closingServer) _
                  eq_refl eq_refl eq_refl)).
Defined.

(** The history of the lemma above: [shutdown] is entered five times,
    from [send] on the failed write of [connection.close-ok], from
    [dispatch0] on the server's close, from the reader on the read error,
    from [send] on the failed write of [Close] and from [Close] itself;
    the subscriber is notified, the transport is closed and the
    subscriber's channel is closed once. *)
Example shutdown_five_times :
  log (run
         [DoNotifyClose 1%nat; DoOpen (mkConfig [plainAuth] "/" 0 0 0);
          DoSend (heartbeatFrame 0); DoReader; DoClose]
         (connect closingServer))
  = [EvGo GoReader;
     EvWrite protocolHeader None;
     EvWrite (methodFrame 0 connectionCloseOk) (Some "broken pipe");
     EvShutdown (Some (mkError 501 "broken pipe"));
     EvNotify 1%nat (mkError 501 "broken pipe");
     EvErrors (mkError 501 "broken pipe");
     EvCloseSends;
     EvCloseConn;
     EvCloseNotify 1%nat;
     EvShutdown (Some (mkError 320 "going down"));
     EvWrite (heartbeatFrame 0) None;
     EvShutdown (Some (mkError 501 "EOF"));
     EvWrite (methodFrame 0 (connectionClose 200 "kthxbai"))
       (Some "use of closed network connection");
     EvShutdown (Some (mkError 501 "use of closed network connection"));
     EvShutdown None].
Proof. vm_compute. reflexivity. Qed.



Lemma dispatch0_close_witness :
  (destructor (connect silentServer) = false -> errors (connect silentServer) = [])
  /\ exists r pre post,
       trace (dispatch0 (methodFrame 0 (connectionClose 320 "going down")))
         (connect silentServer)
       = EvWrite (methodFrame 0 connectionCloseOk) r
           :: pre ++ EvShutdown (Some (newError 320 "going down")) :: post
       /\ match r with
          | None => pre = []
          | Some msg =>
              exists evs,
                pre = EvShutdown (Some (mkError FrameError msg)) :: evs
          end.
Proof.
  split; [intros _; reflexivity|].
  exact (dispatch0_close (connect silentServer) 0 320 "going down"
           (fun _ => eq_refl)).
Defined.


Lemma call_rpc_message_witness :
  ret None (set_reading true (connect tuneWaiting))
    = Done (None : option string) (set_reading true (connect tuneWaiting))
  /\ select (set_reading true (connect tuneWaiting))
     = Done (FromRpc (connectionTune 2047 131072 10))
         (set_reading true (connect silentServer))
  /\ exists pre try post,
       [connectionOpenOk; connectionTune 0 0 0] = pre ++ try :: post
       /\ forallb (fun x => negb (sameType (connectionTune 2047 131072 10) x)) pre
          = true
       /\ sameType (connectionTune 2047 131072 10) try = true
       /\ call select None [connectionOpenOk; connectionTune 0 0 0]
            (set_reading true (connect tuneWaiting))
          = Done (None, pre ++ connectionTune 2047 131072 10 :: post)
              (set_reading true (connect silentServer)).
Proof.
  split; [reflexivity|]. split; [reflexivity|].
  exact (call_rpc_message select None [connectionOpenOk; connectionTune 0 0 0]
           (connectionTune 2047 131072 10)
           (set_reading true (connect tuneWaiting))
           (set_reading true (connect tuneWaiting))
           (set_reading true (connect silentServer))
           eq_refl eq_refl).
Defined.

(** The same message against a [res] of another type. *)
Example call_rpc_message_mismatch :
  call select None [connectionOpenOk] (set_reading true (connect tuneWaiting))
  = Done (Some (AmqpError ErrCommandInvalid), [connectionOpenOk])
      (set_reading true (connect silentServer)).
Proof. reflexivity. Qed.

Lemma Open_Credentials_witness :
  exists me,
    Open droppingServer (mkConfig [plainAuth] "/" 0 0 0)
    = Some (Some me, Some (AmqpError ErrCredentials)).
Proof.
  eexists.
  eapply (Open_Credentials droppingServer (mkConfig [plainAuth] "/" 0 0 0)).
  - vm_compute. reflexivity.
  - vm_compute. reflexivity.
  - vm_compute. reflexivity.
  - vm_compute. reflexivity.
Defined.

Lemma channel_id_wraps_witness :
  Z.of_nat (Z.to_nat 65535) = 65535
  /\ channels (final (Channel_ None (allocate (Z.to_nat 65535) (connect silentServer))))
       !! 0
     = Some (newChannel 0).
Proof.
  split; [reflexivity|].
  exact (proj2 (channel_id_wraps silentServer (Z.to_nat 65535) eq_refl)).
Defined.

(** ** The further properties at work *)

Lemma pick_zero_witness :
  0 <= 0 /\ 0 <= 10 /\ (pick 0 10 = 0 <-> 0 = 0 /\ 10 = 0).
Proof.
  split; [lia|]. split; [lia|].
  apply (pick_zero 0 10); lia.
Defined.

Lemma send_contract_witness :
  ((destructor (connect brokenPipe) = false -> errors (connect brokenPipe) = [])
   /\ closes (connect brokenPipe) = []
   /\ exists w',
        send (heartbeatFrame 0) (connect brokenPipe) = Done (Some "broken pipe") w'
        /\ destructor w' = true
        /\ errors w' = [mkError FrameError "broken pipe"])
  /\ send (heartbeatFrame 0) (connect silentServer)
     = Done None (set_log [EvWrite (heartbeatFrame 0) None] (connect silentServer)).
Proof.
  split.
  - split; [intros _; reflexivity|]. split; [reflexivity|].
    destruct (send_contract (heartbeatFrame 0) (connect brokenPipe)
                (fun _ => eq_refl))
      as (_ & _ & Hreturns).
    destruct (Hreturns eq_refl) as (w' & Hsend & Hd & He).
    exists w'. split; [exact Hsend|]. split; [exact Hd|exact (He eq_refl)].
  - exact (send_contract (heartbeatFrame 0) (connect silentServer)
             (fun _ => eq_refl)).
Defined.

Lemma shutdown_teardown_witness :
  destructor (allocate 2 (connect silentServer)) = false
  /\ errors (allocate 2 (connect silentServer)) = []
  /\ closes (allocate 2 (connect silentServer)) = []
  /\ exists w',
       shutdown (Some (mkError 320 "going down")) (allocate 2 (connect silentServer))
       = Done tt w'
       /\ channels w' = ∅
       /\ sends w' = false
       /\ destructor w' = true
       /\ errors w' = [mkError 320 "going down"]
       /\ channelShutdowns
            (trace (shutdown (Some (mkError 320 "going down")))
               (allocate 2 (connect silentServer)))
          ≡ₚ map (fun kc : Z * Channel => (id kc.2, Some (mkError 320 "going down")))
               (map_to_list (channels (allocate 2 (connect silentServer)))).
Proof.
  split; [reflexivity|]. split; [reflexivity|]. split; [reflexivity|].
  exact (shutdown_teardown (Some (mkError 320 "going down"))
           (allocate 2 (connect silentServer)) eq_refl eq_refl eq_refl).
Defined.

Lemma shutdown_error_reaches_call_witness :
  destructor (set_reading true (connect silentServer)) = false
  /\ errors (set_reading true (connect silentServer)) = []
  /\ closes (set_reading true (connect silentServer)) = []
  /\ rpc (set_reading true (connect silentServer)) = None
  /\ reading (set_reading true (connect silentServer)) = true
  /\ incoming (conn (set_reading true (connect silentServer))) = []
  /\ exists w1 w2,
       shutdown (Some (mkError 320 "going down"))
         (set_reading true (connect silentServer))
       = Done tt w1
       /\ call select None [connectionOpenOk] w1
          = Done (Some (AmqpError (mkError 320 "going down")), [connectionOpenOk]) w2
       /\ errors w2 = [].
Proof.
  split; [reflexivity|]. split; [reflexivity|]. split; [reflexivity|].
  split; [reflexivity|]. split; [reflexivity|]. split; [reflexivity|].
  exact (shutdown_error_reaches_call (mkError 320 "going down") [connectionOpenOk]
           (set_reading true (connect silentServer))
           eq_refl eq_refl eq_refl eq_refl eq_refl eq_refl).
Defined.

Lemma call_error_keeps_res_witness :
  call select None [connectionOpenOk] (set_reading true (connect tuneWaiting))
  = Done (Some (AmqpError ErrCommandInvalid), [connectionOpenOk])
      (set_reading true (connect silentServer))
  /\ [connectionOpenOk] = [connectionOpenOk].
Proof.
  split; [reflexivity|].
  exact (call_error_keeps_res select None [connectionOpenOk] [connectionOpenOk]
           (AmqpError ErrCommandInvalid)
           (set_reading true (connect tuneWaiting))
           (set_reading true (connect silentServer)) eq_refl).
Defined.

Lemma call_success_types_witness :
  call select None [connectionOpenOk; connectionTune 0 0 0]
    (set_reading true (connect tuneWaiting))
  = Done (None, [connectionOpenOk; connectionTune 2047 131072 10])
      (set_reading true (connect silentServer))
  /\ Forall2 (fun a b => sameType a b = true)
       [connectionOpenOk; connectionTune 2047 131072 10]
       [connectionOpenOk; connectionTune 0 0 0].
Proof.
  split; [reflexivity|].
  exact (call_success_types select None [connectionOpenOk; connectionTune 0 0 0]
           [connectionOpenOk; connectionTune 2047 131072 10]
           (set_reading true (connect tuneWaiting))
           (set_reading true (connect silentServer)) eq_refl).
Defined.

Lemma call_answered_witness :
  (forall k t, connectionTune 2047 131072 10 <> connectionClose k t)
  /\ errors (set_reading true (connect tuneWaiting)) = []
  /\ rpc (set_reading true (connect tuneWaiting)) = None
  /\ reading (set_reading true (connect tuneWaiting)) = true
  /\ incoming (conn (set_reading true (connect tuneWaiting)))
     = [inl (methodFrame 0 (connectionTune 2047 131072 10))]
  /\ hd None (outgoing (conn (set_reading true (connect tuneWaiting)))) = None
  /\ exists w',
       call select (Some (connectionStartOk "PLAIN" "guest")) [connectionTune 0 0 0]
         (set_reading true (connect tuneWaiting))
       = Done (None, [connectionTune 2047 131072 10]) w'
       /\ writes (trace (call select (Some (connectionStartOk "PLAIN" "guest"))
                           [connectionTune 0 0 0])
                    (set_reading true (connect tuneWaiting)))
          = [methodFrame 0 (connectionStartOk "PLAIN" "guest")]
       /\ incoming (conn w') = []
       /\ rpc w' = None.
Proof.
  assert (Hm : forall k t, connectionTune 2047 131072 10 <> connectionClose k t)
    by discriminate.
  split; [exact Hm|]. split; [reflexivity|]. split; [reflexivity|].
  split; [reflexivity|]. split; [reflexivity|]. split; [reflexivity|].
  destruct (call_answered (Some (connectionStartOk "PLAIN" "guest"))
              [connectionTune 0 0 0] (connectionTune 2047 131072 10) []
              (set_reading true (connect tuneWaiting))
              Hm eq_refl eq_refl eq_refl eq_refl eq_refl)
    as (w' & Hcall & Hquiet).
  destruct (Hquiet eq_refl) as (Hwrites & Hin & Hrpc & _).
  exists w'. split; [exact Hcall|]. split; [exact Hwrites|]. split; [exact Hin|exact Hrpc].
Defined.

Lemma Open_negotiates_witness :
  pickSASLMechanism [plainAuth] (Split "AMQPLAIN PLAIN" Ascii.Space) = Some plainAuth
  /\ exists me,
       Open (tuningServer 10) (mkConfig [plainAuth] "/" 0 4096 0) = Some (Some me, None)
       /\ Config_ me = mkConfig [plainAuth] "/" 2047 4096 (10 * Second).
Proof.
  split; [reflexivity|].
  destruct (Open_negotiates (mkConfig [plainAuth] "/" 0 4096 0) plainAuth
              0 9 TNil "AMQPLAIN PLAIN" 2047 131072 10 [] eq_refl)
    as (me & Hopen & Hconfig & _).
  exists me. split; [exact Hopen|exact Hconfig].
Defined.

Lemma isCapable_after_Open_witness :
  pickSASLMechanism [plainAuth] (Split "PLAIN" Ascii.Space) = Some plainAuth
  /\ exists me b,
       Open capableServer (mkConfig [plainAuth] "/" 0 0 0) = Some (Some me, None)
       /\ isCapable "basic.ack" me = Done b me
       /\ (b = true <->
           exists capabilities,
             lookupTable ackProperties "capabilities" = Some (VTable capabilities)
             /\ lookupTable capabilities "basic.ack" = Some (VBool true)).
Proof.
  split; [reflexivity|].
  exact (isCapable_after_Open (mkConfig [plainAuth] "/" 0 0 0) plainAuth
           0 9 ackProperties "PLAIN" 0 0 0 [] "basic.ack" eq_refl).
Defined.

Lemma Close_acknowledged_witness :
  destructor (set_reading true (final (NotifyClose 7%nat (connect closeOkWaiting))))
  = false
  /\ NoDup (closes (set_reading true
                      (final (NotifyClose 7%nat (connect closeOkWaiting)))))
  /\ exists w' ls',
       Close (set_reading true (final (NotifyClose 7%nat (connect closeOkWaiting))))
       = Done None w'
       /\ destructor w' = true
       /\ errors w' = []
       /\ deliver (fun _ => mkListener 0 [] false)
            (trace Close
               (set_reading true (final (NotifyClose 7%nat (connect closeOkWaiting)))))
          = Delivered ls'
       /\ received (ls' 7%nat) = []
       /\ closed (ls' 7%nat) = true.
Proof.
  assert (Hnd : NoDup (closes (set_reading true
                                 (final (NotifyClose 7%nat (connect closeOkWaiting))))))
    by (apply NoDup_singleton).
  split; [reflexivity|]. split; [exact Hnd|].
  destruct (Close_acknowledged
              (set_reading true (final (NotifyClose 7%nat (connect closeOkWaiting))))
              (fun _ => mkListener 0 [] false)
              eq_refl eq_refl eq_refl eq_refl eq_refl eq_refl Hnd
              (fun _ _ => eq_refl))
    as (w' & ls' & Hclose & _ & Hd & He & Hdel & Hin & _).
  exists w', ls'. split; [exact Hclose|]. split; [exact Hd|]. split; [exact He|].
  split; [exact Hdel|].
  exact (Hin 7%nat (list_elem_of_here _ _)).
Defined.

Lemma allocate_registry_witness :
  Z.of_nat 3 <= 65535
  /\ channels (allocate 3 (connect silentServer)) !! 2 = Some (newChannel 2)
  /\ channels (allocate 3 (connect silentServer)) !! 0 = None.
Proof.
  assert (H : Z.of_nat 3 <= 65535) by (vm_compute; discriminate).
  split; [exact H|]. split.
  - exact (allocate_registry silentServer 3 2 H).
  - exact (allocate_registry silentServer 3 0 H).
Defined.

Lemma Channel_receives_witness :
  channel (bodyFrame 1 [104; 105]) = uint16 (uint32 (sequence (connect silentServer) + 1))
  /\ channel (bodyFrame 1 [104; 105]) <> 0
  /\ exists w1,
       Channel_ None (connect silentServer)
       = Done (newChannel (channel (bodyFrame 1 [104; 105])), None) w1
       /\ channels w1 !! channel (bodyFrame 1 [104; 105])
          = Some (newChannel (channel (bodyFrame 1 [104; 105])))
       /\ demux (bodyFrame 1 [104; 105]) w1
          = Done tt
              (set_log
                 (log w1 ++ [EvRecv (channel (bodyFrame 1 [104; 105]))
                               (bodyFrame 1 [104; 105])])
                 w1).
Proof.
  assert (H : channel (bodyFrame 1 [104; 105]) <> 0) by discriminate.
  split; [reflexivity|]. split; [exact H|].
  exact (Channel_receives None (bodyFrame 1 [104; 105]) (connect silentServer)
           eq_refl H).
Defined.

Lemma reader_stops_witness :
  (destructor (set_reading true (connect eofServer)) = false ->
   errors (set_reading true (connect eofServer)) = [])
  /\ rpc (set_reading true (connect eofServer)) = None
  /\ reading (set_reading true (connect eofServer)) = true
  /\ incoming (conn (set_reading true (connect eofServer)))
     = [inr "EOF"; inl (heartbeatFrame 0)]
  /\ exists w' evs,
       reader (set_reading true (connect eofServer)) = Done tt w'
       /\ log w'
          = log (set_reading true (connect eofServer))
            ++ EvShutdown (Some (mkError FrameError "EOF")) :: evs
       /\ destructor w' = true
       /\ reading w' = false
       /\ incoming (conn w') = [inl (heartbeatFrame 0)]
       /\ reader w' = Blocked w'.
Proof.
  split; [intros _; reflexivity|]. split; [reflexivity|].
  split; [reflexivity|]. split; [reflexivity|].
  exact (reader_stops "EOF" [inl (heartbeatFrame 0)]
           (set_reading true (connect eofServer))
           (fun _ => eq_refl) eq_refl eq_refl eq_refl).
Defined.

Lemma late_subscriber_unheard_witness :
  destructor (final (shutdown None (connect closingServer))) = true
  /\ heard 7%nat
       (drop (length (log (final (shutdown None (connect closingServer)))))
          (log (run [DoNotifyClose 7%nat; DoReader; DoSend (heartbeatFrame 0); DoClose]
                  (final (shutdown None (connect closingServer))))))
     = [].
Proof.
  assert (H : destructor (final (shutdown None (connect closingServer))) = true)
    by (vm_compute; reflexivity).
  split; [exact H|].
  exact (late_subscriber_unheard 7%nat [DoReader; DoSend (heartbeatFrame 0); DoClose]
           (final (shutdown None (connect closingServer))) H).
Defined.

Lemma closed_at_most_once_witness :
  destructor (connect closingServer) = false
  /\ errors (connect closingServer) = []
  /\ filter teardown (log (connect closingServer)) = []
  /\ (transportCloses
        (log (run
                [DoNotifyClose 1%nat; DoOpen (mkConfig [plainAuth] "/" 0 0 0);
                 DoSend (heartbeatFrame 0); DoReader; DoClose]
                (connect closingServer))) <= 1)%nat
  /\ (sendsCloses
        (log (run
                [DoNotifyClose 1%nat; DoOpen (mkConfig [plainAuth] "/" 0 0 0);
                 DoSend (heartbeatFrame 0); DoReader; DoClose]
                (connect closingServer))) <= 1)%nat.
Proof.
  split; [reflexivity|]. split; [reflexivity|]. split; [reflexivity|].
  exact (closed_at_most_once (connect closingServer)
           [DoNotifyClose 1%nat; DoOpen (mkConfig [plainAuth] "/" 0 0 0);
            DoSend (heartbeatFrame 0); DoReader; DoClose]
           eq_refl eq_refl eq_refl).
Defined.

Lemma Open_vhost_dropped_witness :
  pickSASLMechanism [plainAuth] (Split "PLAIN" Ascii.Space) = Some plainAuth
  /\ exists me,
       Open vhostDropping (mkConfig [plainAuth] "/" 0 0 0)
       = Some (Some me, Some (AmqpError ErrVhost))
       /\ destructor me = true
       /\ Vhost (Config_ me) = "".
Proof.
  split; [reflexivity|].
  destruct (Open_vhost_dropped (mkConfig [plainAuth] "/" 0 0 0) plainAuth
              0 9 TNil "PLAIN" 2047 131072 10 "EOF" [] eq_refl)
    as (me & Hopen & Hd & _ & _ & Hvhost & _).
  exists me. split; [exact Hopen|]. split; [exact Hd|exact Hvhost].
Defined.

Lemma Open_nil_config_witness :
  exists me,
    Open (tuningServer 10) (mkConfig [plainAuth] "/" 0 4096 0) = Some (Some me, None)
    /\ exists auth cm fm hb,
         In auth (SASL (mkConfig [plainAuth] "/" 0 4096 0))
         /\ Config_ me
            = mkConfig [auth] (Vhost (mkConfig [plainAuth] "/" 0 4096 0))
                (pick (Channels (mkConfig [plainAuth] "/" 0 4096 0)) cm)
                (pick (FrameSize (mkConfig [plainAuth] "/" 0 4096 0)) fm)
                (int64 (Second * pick (Heartbeat (mkConfig [plainAuth] "/" 0 4096 0)
                                         ÷ Second) hb)).
Proof.
  eexists. split.
  - vm_compute. reflexivity.
  - apply (Open_nil_config (tuningServer 10) (mkConfig [plainAuth] "/" 0 4096 0)).
    vm_compute. reflexivity.
Defined.

Lemma Open_start_error_witness :
  exists me,
    Open endedStream (mkConfig [plainAuth] "/" 0 0 0)
    = Some (Some me, Some (AmqpError (mkError FrameError "EOF"))).
Proof.
  eexists.
  eapply (Open_start_error endedStream (mkConfig [plainAuth] "/" 0 0 0)).
  - vm_compute. reflexivity.
  - vm_compute. reflexivity.
Defined.


Lemma heartbeater_idle_witness :
  inTime (10 * Second) 0 busyWakeups
  /\ final (heartbeater (10 * Second) 0 busyWakeups (connect silentServer))
     = connect silentServer.
Proof.
  assert (H : inTime (10 * Second) 0 busyWakeups).
  { split; [vm_compute; discriminate|]. split; [vm_compute; discriminate|exact I]. }
  split; [exact H|].
  exact (heartbeater_idle (10 * Second) 0 busyWakeups (connect silentServer) H).
Defined.


Lemma closeWith_on_reader_witness :
  rpc (connect silentServer) = None
  /\ errors (connect silentServer) = []
  /\ hd None (outgoing (conn (connect silentServer))) = None
  /\ exists w',
       closeWith ErrClosed (connect silentServer) = Blocked w'
       /\ trace (closeWith ErrClosed) (connect silentServer)
          = [EvWrite (methodFrame 0
                        (connectionClose (uint16 (Code ErrClosed)) (Reason ErrClosed)))
               None]
       /\ destructor w' = destructor (connect silentServer).
Proof.
  split; [reflexivity|]. split; [reflexivity|]. split; [reflexivity|].
  exact (proj2 (closeWith_on_reader ErrClosed (connect silentServer) eq_refl)
           eq_refl eq_refl).
Defined.

Lemma reader_offers_witness :
  (forall k t, connectionTune 2047 131072 10 <> connectionClose k t)
  /\ exists w1 w2,
       reader (set_reading true (connect tuneWaiting)) = Done tt w1
       /\ rpc w1 = Some (connectionTune 2047 131072 10)
       /\ reader w1 = Blocked w1
       /\ call select None [connectionTune 0 0 0] w1
          = Done (None, [connectionTune 2047 131072 10]) w2
       /\ rpc w2 = None
       /\ incoming (conn w2) = []
       /\ log w2 = log (set_reading true (connect tuneWaiting)).
Proof.
  assert (Hm : forall k t, connectionTune 2047 131072 10 <> connectionClose k t)
    by discriminate.
  split; [exact Hm|].
  destruct (reader_offers (connectionTune 2047 131072 10) [connectionTune 0 0 0] []
              (set_reading true (connect tuneWaiting))
              Hm eq_refl eq_refl eq_refl eq_refl)
    as (w1 & w2 & H1 & H2 & H3 & H4 & Hquiet).
  exists w1, w2. split; [exact H1|]. split; [exact H2|]. split; [exact H3|].
  split; [exact H4|]. exact (Hquiet eq_refl).
Defined.

Lemma demux_unexpected_frame_witness :
  (bodyFrame 0 [104; 105] = headerFrame 0 [104; 105]
   \/ bodyFrame 0 [104; 105] = bodyFrame 0 [104; 105])
  /\ exists r rest,
       trace (demux (bodyFrame 0 [104; 105])) (connect silentServer)
       = EvWrite (methodFrame 0
                    (connectionClose (uint16 (Code ErrUnexpectedFrame))
                       (Reason ErrUnexpectedFrame))) r
           :: rest.
Proof.
  split; [right; reflexivity|].
  exact (proj1 (demux_unexpected_frame (bodyFrame 0 [104; 105]) [104; 105]
                  (connect silentServer) (or_intror eq_refl))).
Defined.
